(** * seek-tune: the SQLite storage client (utils/dbClient.go)

    A shallow embedding of the storage client facade [NewDbClient] and of the
    relational backend [SQLiteDB], together with the properties of the
    specification that concern them.

    The Go code talks to SQLite through database/sql.  The engine is modelled
    as a state ([Engine]) holding the two tables created by [InitTables], the
    view of an open transaction, a schedule of injected driver failures and a
    trace of the statements it received.  Every driver call is a function
    [Engine -> result * Engine]. *)

From Stdlib Require Import String Ascii NArith List.
From stdpp Require Import base option list gmap strings.

Local Open Scope string_scope.

(** ** Go's [strings] package (the two functions the client uses) *)

Module strings.

(** [strings.HasPrefix(s, prefix)]. *)
Fixpoint HasPrefix (s prefix : string) : bool :=
  match prefix, s with
  | EmptyString, _ => true
  | String _ _, EmptyString => false
  | String p prefix', String c s' => if Ascii.eqb c p then HasPrefix s' prefix' else false
  end.

(** [strings.Contains(s, substr)]: some suffix of [s] starts with [substr]. *)
Fixpoint Contains (s substr : string) : bool :=
  match s with
  | EmptyString => HasPrefix EmptyString substr
  | String _ s' => HasPrefix s substr || Contains s' substr
  end.

(** The scan of [strings.Split(s, sep)] for a non-empty [sep]: [cur] is the
    part being read (reversed), [skip] the number of bytes of a matched
    separator still to drop.  Separators are matched leftmost first and do
    not overlap. *)
Fixpoint genSplit (sep : string) (cur : list ascii) (skip : nat) (s : string) : list string :=
  match s with
  | EmptyString => [string_of_list_ascii (rev cur)]
  | String c s' =>
      match skip with
      | S k => genSplit sep cur k s'
      | O =>
          if HasPrefix s sep
          then string_of_list_ascii (rev cur) :: genSplit sep [] (String.length sep - 1) s'
          else genSplit sep (c :: cur) 0 s'
      end
  end.

(** [strings.Split(s, sep)] with [sep] non-empty (the client only splits on
    the constant ["---"]). *)
Definition Split (s sep : string) : list string := genSplit sep [] 0 s.

(** [strings.Join(parts, sep)], used to state what [Split] computes. *)
Fixpoint Join (parts : list string) (sep : string) : string :=
  match parts with
  | [] => EmptyString
  | [p] => p
  | p :: rest => p ++ sep ++ Join rest sep
  end.

End strings.

(** ** Data model *)

(** Go's [uint32] values are never combined arithmetically by the client: they
    are carried as natural numbers. *)
Abbreviation uint32 := N (only parsing).

(** [models.Couple]: one occurrence of a fingerprint address. *)
Record Couple := mkCouple { AnchorTimeMs : uint32; SongID : uint32 }.

#[global] Instance Couple_eq_dec : EqDecision Couple.
Proof. solve_decision. Defined.

(** [Song], as returned to callers. *)
Record Song := mkSong { Title : string; Artist : string; YouTubeID : string }.

(** [Song{}]. *)
Definition emptySong : Song := mkSong "" "" "".

(** A row of table [songs (id INTEGER PRIMARY KEY, key TEXT UNIQUE, ytID TEXT UNIQUE)]. *)
Record SongRow := mkSongRow { row_id : uint32; row_key : string; row_ytID : string }.

(** The dynamic types of the [value interface{}] argument of [GetSong] that
    the client itself passes ([GetSongByID]: uint32, the other two: string). *)
Inductive SqlArg :=
| ArgUint32 (n : uint32)
| ArgString (s : string).

#[global] Instance SqlArg_eq_dec : EqDecision SqlArg.
Proof. solve_decision. Defined.

(** Errors of database/sql and of the driver: the two sentinels the client
    can meet, and any other error with its message ([err.Error()]). *)
Inductive DriverErr :=
| ErrNoRows
| ErrTxDone
| DriverMsg (msg : string).

Definition DriverErr_Error (err : DriverErr) : string :=
  match err with
  | ErrNoRows => "sql: no rows in result set"
  | ErrTxDone => "sql: transaction has already been committed or rolled back"
  | DriverMsg msg => msg
  end.

(** The [error] values the client returns, one constructor per place that
    builds one. *)
Inductive error :=
| UnsupportedDatabase                                   (* errors.New("unsupported database") *)
| Unwrapped (cause : DriverErr)                         (* a driver error returned as it is *)
| ErrorUpsertingDocument (cause : DriverErr)            (* "error upserting document: %s" *)
| ErrorRetrievingDocument (address : uint32) (cause : DriverErr)
                                                        (* "error retrieving document for address %d: %s" *)
| SongAlreadyExists (cause : DriverErr)                 (* "song with ytID or key already exists: %v" *)
| FailedToRegisterSong (cause : DriverErr)              (* "failed to register song: %v" *)
| InvalidFilterKey                                      (* errors.New("invalid filter key") *)
| FailedToRetrieveSong (cause : DriverErr)              (* "failed to retrieve song: %v" *)
| InvalidKeyFormat.                                     (* fmt.Errorf("invalid key format") *)

(** The names the specification gives to these errors.  A driver error that
    is returned as it is has the class of the operation that returns it (a
    write for [StoreFingerprints], a read for [GetCouples]). *)
Inductive ErrorClass :=
| UnsupportedBackend | WriteError | ReadError | DuplicateSong | InvalidFilter | CorruptRecord.

Definition classify (err : error) : option ErrorClass :=
  match err with
  | UnsupportedDatabase => Some UnsupportedBackend
  | Unwrapped _ => None
  | ErrorUpsertingDocument _ => Some WriteError
  | ErrorRetrievingDocument _ _ => Some ReadError
  | SongAlreadyExists _ => Some DuplicateSong
  | FailedToRegisterSong _ => Some WriteError
  | InvalidFilterKey => Some InvalidFilter
  | FailedToRetrieveSong _ => Some ReadError
  | InvalidKeyFormat => Some CorruptRecord
  end.

(** ** The engine behind [sqlite.db] *)

Record Engine := mkEngine {
  fingerprints : gmap N Couple;      (* committed rows of table fingerprints, by primary key *)
  songs : list SongRow;              (* rows of table songs *)
  tx : option (gmap N Couple);       (* table fingerprints as seen by the open transaction *)
  faults : list (option string);     (* per driver call to come: the message it fails with, if it fails *)
  trace : list string                (* the driver calls received so far *)
}.

Definition set_fingerprints (t : gmap N Couple) (e : Engine) : Engine :=
  mkEngine t (songs e) (tx e) (faults e) (trace e).
Definition set_songs (rows : list SongRow) (e : Engine) : Engine :=
  mkEngine (fingerprints e) rows (tx e) (faults e) (trace e).
Definition set_tx (t : option (gmap N Couple)) (e : Engine) : Engine :=
  mkEngine (fingerprints e) (songs e) t (faults e) (trace e).

(** The engine with empty tables that never fails. *)
Definition emptyEngine : Engine := mkEngine ∅ [] None [] [].

(** No driver call to come fails. *)
Definition healthy (e : Engine) : Prop := Forall (λ f, f = None) (faults e).

(** The failure the next driver call meets, if any (an exhausted schedule
    means no failure). *)
Definition next_fault (e : Engine) : option string := mjoin (head (faults e)).

(** None of the next [n] driver calls fails. *)
Definition no_fault_in (n : nat) (e : Engine) : Prop :=
  Forall (λ f, f = None) (take n (faults e)).

(** A driver call reaches the engine: it is recorded and takes the next entry
    of the failure schedule. *)
Definition call (what : string) (e : Engine) : option string * Engine :=
  (next_fault e,
   mkEngine (fingerprints e) (songs e) (tx e) (tail (faults e)) (trace e ++ [what])).

Definition upsert_sql : string :=
  "INSERT INTO fingerprints (address, anchorTimeMs, songID) VALUES (?, ?, ?) ON CONFLICT(address) DO UPDATE SET anchorTimeMs=excluded.anchorTimeMs, songID=excluded.songID".
Definition select_couples_sql : string :=
  "SELECT anchorTimeMs, songID FROM fingerprints WHERE address = ?".
Definition insert_song_sql : string :=
  "INSERT INTO songs (id, key, ytID) VALUES (?, ?, ?)".

(** [sqlite.db.Begin()]. *)
Definition db_Begin (e : Engine) : (DriverErr + unit) * Engine :=
  match call "BEGIN" e with
  | (Some msg, e1) => (inl (DriverMsg msg), e1)
  | (None, e1) => (inr (), set_tx (Some (fingerprints e1)) e1)
  end.

(** [tx.Prepare(query)]. *)
Definition tx_Prepare (query : string) (e : Engine) : (DriverErr + unit) * Engine :=
  match tx e with
  | None => (inl ErrTxDone, e)
  | Some _ =>
      match call query e with
      | (Some msg, e1) => (inl (DriverMsg msg), e1)
      | (None, e1) => (inr (), e1)
      end
  end.

(** [stmt.Exec(address, anchorTimeMs, songID)] of the prepared upsert: the
    row of primary key [address] is inserted, or replaced when there is one. *)
Definition stmt_Exec (address : uint32) (couple : Couple) (e : Engine) : (DriverErr + unit) * Engine :=
  match tx e with
  | None => (inl ErrTxDone, e)
  | Some t =>
      match call upsert_sql e with
      | (Some msg, e1) => (inl (DriverMsg msg), e1)
      | (None, e1) => (inr (), set_tx (Some (<[address := couple]> t)) e1)
      end
  end.

(** [tx.Commit()].  database/sql ends the transaction whatever the outcome,
    and the driver rolls back after a COMMIT that failed. *)
Definition tx_Commit (e : Engine) : (DriverErr + unit) * Engine :=
  match tx e with
  | None => (inl ErrTxDone, e)
  | Some t =>
      match call "COMMIT" e with
      | (Some msg, e1) => (inl (DriverMsg msg), set_tx None e1)
      | (None, e1) => (inr (), set_tx None (set_fingerprints t e1))
      end
  end.

(** [tx.Rollback()]: nothing to do once the transaction is over; otherwise
    the pending rows are dropped (also when the statement reports an error:
    what was not committed is undone by the journal). *)
Definition tx_Rollback (e : Engine) : (DriverErr + unit) * Engine :=
  match tx e with
  | None => (inl ErrTxDone, e)
  | Some _ =>
      match call "ROLLBACK" e with
      | (Some msg, e1) => (inl (DriverMsg msg), set_tx None e1)
      | (None, e1) => (inr (), set_tx None e1)
      end
  end.

(** [sqlite.db.Query("SELECT anchorTimeMs, songID FROM fingerprints WHERE
    address = ?", address)]: the rows of that primary key, read from the
    committed table. *)
Definition db_Query (address : uint32) (e : Engine) : (DriverErr + list Couple) * Engine :=
  match call select_couples_sql e with
  | (Some msg, e1) => (inl (DriverMsg msg), e1)
  | (None, e1) => (inr (option_list (fingerprints e1 !! address)), e1)
  end.

(** [rows.Next()]: false at the end of the rows and also when fetching fails
    (the error then waits in [rows.Err()]). *)
Definition rows_Next (rows : list Couple) (e : Engine) : bool * Engine :=
  match call "rows.Next" e with
  | (Some _, e1) => (false, e1)
  | (None, e1) => (match rows with [] => false | _ :: _ => true end, e1)
  end.

(** [rows.Scan(&couple.AnchorTimeMs, &couple.SongID)] on the current row. *)
Definition rows_Scan (row : Couple) (e : Engine) : (DriverErr + Couple) * Engine :=
  match call "rows.Scan" e with
  | (Some msg, e1) => (inl (DriverMsg msg), e1)
  | (None, e1) => (inr row, e1)
  end.

(** [sqlite.db.Exec("INSERT INTO songs (id, key, ytID) VALUES (?, ?, ?)", ...)]
    under the constraints of the table: PRIMARY KEY on id, UNIQUE on key and
    on ytID. *)
Definition db_Exec_insert_song (row : SongRow) (e : Engine) : (DriverErr + unit) * Engine :=
  match call insert_song_sql e with
  | (Some msg, e1) => (inl (DriverMsg msg), e1)
  | (None, e1) =>
      if bool_decide (row_id row ∈ row_id <$> songs e1)
      then (inl (DriverMsg "UNIQUE constraint failed: songs.id"), e1)
      else if bool_decide (row_key row ∈ row_key <$> songs e1)
      then (inl (DriverMsg "UNIQUE constraint failed: songs.key"), e1)
      else if bool_decide (row_ytID row ∈ row_ytID <$> songs e1)
      then (inl (DriverMsg "UNIQUE constraint failed: songs.ytID"), e1)
      else (inr (), set_songs (songs e1 ++ [row]) e1)
  end.

(** [defer d] around a function body: the body runs, then [d], whose result
    is dropped, and the body's result is returned. *)
Definition defer {A B} (d : Engine → B * Engine) (body : Engine → A * Engine)
    (e : Engine) : A * Engine :=
  let '(r, e1) := body e in (r, (d e1).2).

(** The table a transaction leaves when every upsert of [entries] ran, in
    that order, on table [t]. *)
Definition upsert_all (t : gmap N Couple) (entries : list (N * Couple)) : gmap N Couple :=
  foldl (λ t entry, <[entry.1 := entry.2]> t) t entries.

(** ** The storage client facade *)

Definition FILTER_KEYS : string := "_id | ytID | key".

(** [os.Getenv(key)]: the empty string when the variable is not set. *)
Definition Getenv (environ : gmap string string) (key : string) : string :=
  default "" (environ !! key).

(** The constructor [NewDbClient] hands over to. *)
Inductive Backend := newMongoDB | newSQLiteDB.

(** [NewDbClient], as a function of the process environment. *)
Definition NewDbClient (environ : gmap string string) : error + Backend :=
  let storageType := Getenv environ "STORAGE_TYPE" in
  let storageType := if String.eqb storageType "" then "mongodb" else storageType in
  if String.eqb storageType "mongodb" then inr newMongoDB
  else if String.eqb storageType "sqlite" then inr newSQLiteDB
  else inl UnsupportedDatabase.

(** ** The relational backend *)

(** The body of [for address, couple := range fingerprints], over the entries
    in the order the loop meets them. *)
Fixpoint upsert_each (entries : list (uint32 * Couple)) (e : Engine) : option error * Engine :=
  match entries with
  | [] => (None, e)
  | (address, couple) :: rest =>
      match stmt_Exec address couple e with
      | (inl err, e1) => (Some (ErrorUpsertingDocument err), e1)
      | (inr _, e1) => upsert_each rest e1
      end
  end.

(** [StoreFingerprints].  The Go map is given by its entries in the order
    [range] yields them: each key once, in an order the language leaves open.
    The deferred [stmt.Close()] releases the statement and touches no table;
    it is left out. *)
Definition StoreFingerprints (entries : list (uint32 * Couple)) (e : Engine) : option error * Engine :=
  match db_Begin e with
  | (inl err, e1) => (Some (Unwrapped err), e1)
  | (inr _, e1) =>
      defer tx_Rollback (λ e1,
        match tx_Prepare upsert_sql e1 with
        | (inl err, e2) => (Some (Unwrapped err), e2)
        | (inr _, e2) =>
            match upsert_each entries e2 with
            | (Some err, e3) => (Some err, e3)
            | (None, e3) =>
                match tx_Commit e3 with
                | (inl err, e4) => (Some (Unwrapped err), e4)
                | (inr _, e4) => (None, e4)
                end
            end
        end) e1
  end.

(** [for rows.Next() { rows.Scan(...); docCouples = append(docCouples, couple) }]. *)
Fixpoint scan_rows (rows : list Couple) (docCouples : list Couple) (e : Engine)
    : (DriverErr + list Couple) * Engine :=
  let '(more, e1) := rows_Next rows e in
  if more then
    match rows with
    | [] => (inr docCouples, e1)
    | row :: rest =>
        match rows_Scan row e1 with
        | (inl err, e2) => (inl err, e2)
        | (inr couple, e2) => scan_rows rest (docCouples ++ [couple]) e2
        end
    end
  else (inr docCouples, e1).

(** The body of [for _, address := range addresses]. *)
Fixpoint collect_couples (addresses : list uint32) (couples : gmap N (list Couple)) (e : Engine)
    : (error + gmap N (list Couple)) * Engine :=
  match addresses with
  | [] => (inr couples, e)
  | address :: rest =>
      match db_Query address e with
      | (inl err, e1) => (inl (ErrorRetrievingDocument address err), e1)
      | (inr rows, e1) =>
          match scan_rows rows [] e1 with
          | (inl err, e2) => (inl (Unwrapped err), e2)
          | (inr docCouples, e2) => collect_couples rest (<[address := docCouples]> couples) e2
          end
      end
  end.

(** [GetCouples].  The deferred [rows.Close()] calls release cursors that the
    loops have already read to their end; they are left out. *)
Definition GetCouples (addresses : list uint32) (e : Engine)
    : (error + gmap N (list Couple)) * Engine :=
  collect_couples addresses ∅ e.

(** Modelled from the spec: [GenerateSongKey], which is not in this file; the
    key is ["<title>---<artist>"]. *)
Definition GenerateSongKey (songTitle songArtist : string) : string :=
  songTitle ++ "---" ++ songArtist.

(** [RegisterSong].  [songID] is the value [GenerateUniqueID()] returns at
    this call. *)
Definition RegisterSong (songID : uint32) (songTitle songArtist ytID : string) (e : Engine)
    : (uint32 * option error) * Engine :=
  let key := GenerateSongKey songTitle songArtist in
  match db_Exec_insert_song (mkSongRow songID key ytID) e with
  | (inl err, e1) =>
      if strings.Contains (DriverErr_Error err) "UNIQUE constraint failed"
      then ((0%N, Some (SongAlreadyExists err)), e1)
      else ((0%N, Some (FailedToRegisterSong err)), e1)
  | (inr _, e1) => ((songID, None), e1)
  end.

Section SongQueries.

(** What the engine answers to a SELECT on table [songs], from the statement
    text, its argument and the rows of the table: the rows selected, or the
    error of a statement it cannot run. *)
Variable select_songs : string → SqlArg → list SongRow → DriverErr + list SongRow.

(** [sqlite.db.QueryRow(query, value)]: the [*sql.Row], that is the error of
    the query or its rows. *)
Definition db_QueryRow (query : string) (value : SqlArg) (e : Engine)
    : (DriverErr + list SongRow) * Engine :=
  match call query e with
  | (Some msg, e1) => (inl (DriverMsg msg), e1)
  | (None, e1) => (select_songs query value (songs e1), e1)
  end.

(** [row.Scan(&song.Title, &song.YouTubeID)]: the error of the query,
    [sql.ErrNoRows] when it selected nothing, else the columns of the first
    row. *)
Definition row_Scan (row : DriverErr + list SongRow) (e : Engine)
    : (DriverErr + string * string) * Engine :=
  match row with
  | inl err => (inl err, e)
  | inr rows =>
      match call "row.Scan" e with
      | (Some msg, e1) => (inl (DriverMsg msg), e1)
      | (None, e1) =>
          match rows with
          | [] => (inl ErrNoRows, e1)
          | r :: _ => (inr (row_key r, row_ytID r), e1)
          end
      end
  end.

(** [fmt.Sprintf("SELECT key, ytID FROM songs WHERE %s = ?", filterKey)]. *)
Definition song_query (filterKey : string) : string :=
  "SELECT key, ytID FROM songs WHERE " ++ filterKey ++ " = ?".

(** [GetSong].  [len(parts) != 2] is the second branch of the match on the
    parts. *)
Definition GetSong (filterKey : string) (value : SqlArg) (e : Engine)
    : (Song * bool * option error) * Engine :=
  if negb (strings.Contains FILTER_KEYS filterKey)
  then ((emptySong, false, Some InvalidFilterKey), e)
  else
    let query := song_query filterKey in
    let '(row, e1) := db_QueryRow query value e in
    match row_Scan row e1 with
    | (inl ErrNoRows, e2) => ((emptySong, false, None), e2)
    | (inl err, e2) => ((emptySong, false, Some (FailedToRetrieveSong err)), e2)
    | (inr (title, youTubeID), e2) =>
        let song := mkSong title "" youTubeID in
        match strings.Split (Title song) "---" with
        | [part0; part1] => ((mkSong part0 part1 (YouTubeID song), true, None), e2)
        | _ => ((emptySong, false, Some InvalidKeyFormat), e2)
        end
    end.

Definition GetSongByID (songID : uint32) := GetSong "id" (ArgUint32 songID).
Definition GetSongByYTID (ytID : string) := GetSong "ytID" (ArgString ytID).
Definition GetSongByKey (key : string) := GetSong "key" (ArgString key).

End SongQueries.

(** A reference answer of the engine for the three statements issued by
    [GetSongByID], [GetSongByYTID] and [GetSongByKey], each with an argument
    of the type of its column; any other statement is refused. *)
Definition sqlite_select (query : string) (value : SqlArg) (rows : list SongRow)
    : DriverErr + list SongRow :=
  if String.eqb query "SELECT key, ytID FROM songs WHERE id = ?" then
    inr (filter (λ r, ArgUint32 (row_id r) = value) rows)
  else if String.eqb query "SELECT key, ytID FROM songs WHERE key = ?" then
    inr (filter (λ r, ArgString (row_key r) = value) rows)
  else if String.eqb query "SELECT key, ytID FROM songs WHERE ytID = ?" then
    inr (filter (λ r, ArgString (row_ytID r) = value) rows)
  else inl (DriverMsg "SQL logic error").

(** ** The rest of the song registry *)

Definition count_songs_sql : string := "SELECT COUNT(*) FROM songs".
Definition delete_song_sql : string := "DELETE FROM songs WHERE id = ?".

(** [sqlite.db.QueryRow("SELECT COUNT(*) FROM songs")]: the error of the
    query, or the one row it yields, holding the number of rows of [songs]. *)
Definition db_QueryRow_count (e : Engine) : (DriverErr + N) * Engine :=
  match call count_songs_sql e with
  | (Some msg, e1) => (inl (DriverMsg msg), e1)
  | (None, e1) => (inr (N.of_nat (length (songs e1))), e1)
  end.

(** [row.Scan(&total)] on that row. *)
Definition row_Scan_count (row : DriverErr + N) (e : Engine) : (DriverErr + N) * Engine :=
  match row with
  | inl err => (inl err, e)
  | inr count =>
      match call "row.Scan" e with
      | (Some msg, e1) => (inl (DriverMsg msg), e1)
      | (None, e1) => (inr count, e1)
      end
  end.

(** [TotalSongs].  The count is far below the range of Go's [int]; it is
    carried as a natural number. *)
Definition TotalSongs (e : Engine) : (N * option error) * Engine :=
  let '(row, e1) := db_QueryRow_count e in
  match row_Scan_count row e1 with
  | (inl err, e2) => ((0%N, Some (Unwrapped err)), e2)
  | (inr total, e2) => ((total, None), e2)
  end.

(** [sqlite.db.Exec("DELETE FROM songs WHERE id = ?", songID)]: the rows of
    that id leave the table, the others stay in place. *)
Definition db_Exec_delete_song (songID : uint32) (e : Engine) : (DriverErr + unit) * Engine :=
  match call delete_song_sql e with
  | (Some msg, e1) => (inl (DriverMsg msg), e1)
  | (None, e1) => (inr (), set_songs (filter (λ r, row_id r ≠ songID) (songs e1)) e1)
  end.

(** The [error] value [DeleteSongByID] builds. *)
Inductive delete_error :=
| FailedToDeleteSong (cause : DriverErr).                (* "failed to delete song: %v" *)

(** [DeleteSongByID]. *)
Definition DeleteSongByID (songID : uint32) (e : Engine) : option delete_error * Engine :=
  match db_Exec_delete_song songID e with
  | (inl err, e1) => (Some (FailedToDeleteSong err), e1)
  | (inr _, e1) => (None, e1)
  end.

(** The constraints of table [songs] as [InitTables] declares it: PRIMARY KEY
    on id, UNIQUE on key, UNIQUE on ytID. *)
Definition songs_constraints (rows : list SongRow) : Prop :=
  NoDup (row_id <$> rows) ∧ NoDup (row_key <$> rows) ∧ NoDup (row_ytID <$> rows).

(** The two tables and the open transaction are the same in both engines. *)
Definition same_tables (e e' : Engine) : Prop :=
  fingerprints e' = fingerprints e ∧ songs e' = songs e ∧ tx e' = tx e.

(** What [GetSong] makes of a row it has read: the Song, or the error of a key
    that does not have two parts. *)
Definition song_of_row (r : SongRow) : Song * bool * option error :=
  match strings.Split (row_key r) "---" with
  | [part0; part1] => (mkSong part0 part1 (row_ytID r), true, None)
  | _ => (emptySong, false, Some InvalidKeyFormat)
  end.

(** ** Sample states *)

(** An engine holding one song whose key has three parts and one whose key
    has two. *)
Definition sampleEngine : Engine :=
  mkEngine ∅ [mkSongRow 7 "a---b---c" "yt7"; mkSongRow 42 "Song A---Artist X" "yt123"]
    None [] [].

(** An index holding one occurrence, and an engine whose fourth driver call
    (the second upsert of a batch) fails. *)
Definition indexedEngine : Engine :=
  mkEngine {[ 100%N := mkCouple 1 9 ]} [] None [] [].
Definition failingEngine : Engine :=
  mkEngine {[ 100%N := mkCouple 1 9 ]} [] None [None; None; None; Some "disk I/O error"] [].

Definition sampleBatch : list (N * Couple) :=
  [(100%N, mkCouple 500 1); (200%N, mkCouple 900 2)].

(** ** The functions at work *)

Example Contains_id : strings.Contains "_id | ytID | key" "id" = true.
Proof. reflexivity. Qed.

Example Contains_address : strings.Contains "_id | ytID | key" "address" = false.
Proof. reflexivity. Qed.

Example Split_two : strings.Split "Song A---Artist X" "---" = ["Song A"; "Artist X"].
Proof. reflexivity. Qed.

Example Split_none : strings.Split "no separator" "---" = ["no separator"].
Proof. reflexivity. Qed.

Example Split_three : strings.Split "a---b---c" "---" = ["a"; "b"; "c"].
Proof. reflexivity. Qed.

Example Split_leftmost : strings.Split "a----b" "---" = ["a"; "-b"].
Proof. reflexivity. Qed.

Example Split_trailing : strings.Split "a---" "---" = ["a"; ""].
Proof. reflexivity. Qed.

(** ** The engine's bookkeeping *)

Lemma healthy_next_fault e : healthy e → next_fault e = None.
Proof.
  unfold healthy, next_fault. destruct (faults e) as [|f fs]; [done|].
  intros H. by inversion H; subst.
Qed.

Lemma healthy_call what e : healthy e → healthy (call what e).2.
Proof.
  unfold healthy, call. simpl. destruct (faults e) as [|f fs]; [done|].
  intros H. by inversion H.
Qed.

Lemma call_healthy what e : healthy e → call what e = (None, (call what e).2).
Proof. intros H. unfold call. simpl. by rewrite healthy_next_fault. Qed.

Lemma healthy_emptyEngine : healthy emptyEngine.
Proof. constructor. Qed.

(** ** [strings.Split] rebuilds its input *)

Lemma HasPrefix_app s sep :
  strings.HasPrefix s sep = true → ∃ rest, s = sep ++ rest.
Proof.
  revert s. induction sep as [|p sep IH]; intros s; simpl.
  - intros _. by exists s.
  - destruct s as [|c s]; simpl; [done|].
    destruct (Ascii.eqb c p) eqn:E; [|done].
    apply Ascii.eqb_eq in E as ->. intros [rest ->]%IH. exists rest. reflexivity.
Qed.

Lemma genSplit_skip sep cur pre s :
  strings.genSplit sep cur (String.length pre) (pre ++ s) = strings.genSplit sep cur 0 s.
Proof. induction pre as [|c pre IH]; simpl; [by destruct s|done]. Qed.

Lemma genSplit_not_nil sep cur skip s : strings.genSplit sep cur skip s ≠ [].
Proof.
  revert cur skip. induction s as [|c s IH]; intros cur skip; [done|].
  cbn [strings.genSplit]. destruct skip; [|apply IH].
  destruct (strings.HasPrefix _ _); [done|apply IH].
Qed.

Lemma Join_cons p rest sep :
  rest ≠ [] → strings.Join (p :: rest) sep = p ++ sep ++ strings.Join rest sep.
Proof. by destruct rest. Qed.

Lemma append_cons c s t : String c s ++ t = String c (s ++ t).
Proof. reflexivity. Qed.

Lemma string_of_snoc l c s :
  string_of_list_ascii (l ++ [c])%list ++ s = string_of_list_ascii l ++ String c s.
Proof. induction l as [|a l IH]; [done|]. cbn. by rewrite !append_cons, IH. Qed.

Lemma append_empty s : s ++ "" = s.
Proof. induction s; [done|]. by rewrite append_cons; f_equal. Qed.

Lemma append_length s t :
  String.length (s ++ t) = (String.length s + String.length t)%nat.
Proof. induction s; [done|]. rewrite append_cons. simpl. by f_equal. Qed.

Lemma Join_genSplit sep (n : nat) : sep ≠ "" → ∀ s cur,
  (String.length s ≤ n)%nat →
  strings.Join (strings.genSplit sep cur 0 s) sep = string_of_list_ascii (rev cur) ++ s.
Proof.
  intros Hsep. induction n as [|n IH]; intros s cur Hlen.
  - destruct s; simpl in *; [|lia]. symmetry. apply append_empty.
  - destruct s as [|c s]; [symmetry; apply append_empty|].
    cbn [strings.genSplit]. destruct (strings.HasPrefix _ _) eqn:Hpre.
    + rewrite Join_cons by apply genSplit_not_nil.
      destruct (HasPrefix_app _ _ Hpre) as [rest Hrest].
      destruct sep as [|p sep]; [done|]. simpl in Hrest. injection Hrest as -> ->.
      replace (String.length (String p sep) - 1) with (String.length sep)
        by (simpl; lia).
      rewrite genSplit_skip, IH; [done|].
      simpl in Hlen. rewrite append_length in Hlen. lia.
    + rewrite IH by (simpl in Hlen; lia). simpl. apply string_of_snoc.
Qed.

(** Joining the parts of [Split s sep] with [sep] gives [s] back. *)
Lemma Join_Split s sep : sep ≠ "" → strings.Join (strings.Split s sep) sep = s.
Proof. intros Hsep. unfold strings.Split. by rewrite (Join_genSplit sep (String.length s) Hsep s []). Qed.

(** ** Song lookups *)

(** A return statement that carries an error: read off what it returned. *)
Ltac returned_error :=
  intros [= <- <- <-]; repeat split; eauto.

Section SongQueryProperties.

Variable select_songs : string → SqlArg → list SongRow → DriverErr + list SongRow.

(** A filter key that is no substring of [FILTER_KEYS] is refused before
    any driver call: the engine is returned as it was received. *)
Lemma GetSong_refused filterKey value e :
  strings.Contains FILTER_KEYS filterKey = false →
  GetSong select_songs filterKey value e = ((emptySong, false, Some InvalidFilterKey), e).
Proof. intros H. unfold GetSong. by rewrite H. Qed.

Lemma GetSong_address value e :
  GetSong select_songs "address" value e = ((emptySong, false, Some InvalidFilterKey), e).
Proof. by apply GetSong_refused. Qed.

(** Once the filter key is let through, the statement built from it is the
    next call the engine receives. *)
Lemma GetSong_queries filterKey value e :
  strings.Contains FILTER_KEYS filterKey = true →
  ∃ rest, trace (GetSong select_songs filterKey value e).2 = (trace e ++ song_query filterKey :: rest)%list.
Proof.
  intros H. unfold GetSong, db_QueryRow, row_Scan, call. rewrite H. simpl.
  destruct (next_fault e); simpl; [by eexists|].
  destruct (select_songs _ _ _) as [err|rows]; simpl.
  - exists []%list. by destruct err.
  - exists ["row.Scan"]%list. rewrite <- (assoc_L (++)%list).
    destruct (next_fault _); simpl; [done|].
    destruct rows as [|r rows]; [done|]. simpl.
    by repeat case_match.
Qed.

(** What a lookup answers on an engine that does not fail. *)
Lemma GetSong_healthy filterKey value e :
  strings.Contains FILTER_KEYS filterKey = true →
  healthy e →
  (GetSong select_songs filterKey value e).1 =
    match select_songs (song_query filterKey) value (songs e) with
    | inl ErrNoRows | inr [] => (emptySong, false, None)
    | inl err => (emptySong, false, Some (FailedToRetrieveSong err))
    | inr (r :: _) =>
        match strings.Split (row_key r) "---" with
        | [part0; part1] => (mkSong part0 part1 (row_ytID r), true, None)
        | _ => (emptySong, false, Some InvalidKeyFormat)
        end
    end.
Proof.
  intros H Hh. unfold GetSong, db_QueryRow, row_Scan. rewrite H. cbn [negb].
  rewrite (call_healthy _ _ Hh).
  change (songs (call (song_query filterKey) e).2) with (songs e).
  destruct (select_songs _ _ _) as [err|rows]; [by destruct err|].
  rewrite call_healthy by by apply healthy_call.
  destruct rows as [|r rows]; [done|]. simpl. by repeat case_match.
Qed.

(** C1 (the code departs from it): a filter key outside the allow-list
    {id, ytID, key} is to be refused with the invalid-filter error before
    any storage access.  The check is a substring test against
    ["_id | ytID | key"]: the key ["k"], which is not in the allow-list, is
    let through, the statement built from it reaches the engine, and the
    caller never gets the invalid-filter error. *)
Theorem GetSong_substring_key_reaches_storage value e :
  ("k" ∉ ["id"; "ytID"; "key"]) ∧
  (GetSong select_songs "k" value e).1.2 ≠ Some InvalidFilterKey ∧
  ∃ rest, trace (GetSong select_songs "k" value e).2
          = (trace e ++ "SELECT key, ytID FROM songs WHERE k = ?" :: rest)%list.
Proof.
  split; [|split].
  - intros H. by repeat (apply elem_of_cons in H as [H|H]; [done|]); inversion H.
  - unfold GetSong, db_QueryRow, row_Scan, call.
    replace (strings.Contains FILTER_KEYS "k") with true by reflexivity.
    cbn [negb]. destruct (next_fault e); [done|].
    destruct (select_songs _ _ _) as [[]|rows]; try done.
    destruct (next_fault _); [done|].
    destruct rows as [|r rows]; [done|]. simpl. by repeat case_match.
  - by apply (GetSong_queries "k").
Qed.

(** C6: on an engine that does not fail, a lookup by id, ytID or key whose
    statement selects no row returns the empty Song, found=false and no
    error; so do GetSongByID, GetSongByYTID and GetSongByKey. *)
Theorem GetSong_not_found e :
  healthy e →
  (∀ filterKey value,
      filterKey ∈ ["id"; "ytID"; "key"] →
      select_songs (song_query filterKey) value (songs e) = inr [] →
      (GetSong select_songs filterKey value e).1 = (emptySong, false, None)) ∧
  (∀ songID,
      select_songs (song_query "id") (ArgUint32 songID) (songs e) = inr [] →
      (GetSongByID select_songs songID e).1 = (emptySong, false, None)) ∧
  (∀ ytID,
      select_songs (song_query "ytID") (ArgString ytID) (songs e) = inr [] →
      (GetSongByYTID select_songs ytID e).1 = (emptySong, false, None)) ∧
  (∀ key,
      select_songs (song_query "key") (ArgString key) (songs e) = inr [] →
      (GetSongByKey select_songs key e).1 = (emptySong, false, None)).
Proof.
  intros Hh.
  assert (∀ filterKey value,
      filterKey ∈ ["id"; "ytID"; "key"] →
      select_songs (song_query filterKey) value (songs e) = inr [] →
      (GetSong select_songs filterKey value e).1 = (emptySong, false, None)) as Hall.
  { intros filterKey value Hin Hsel.
    rewrite GetSong_healthy, Hsel; [done| |done].
    apply list_elem_of_In in Hin. simpl in Hin.
    by destruct Hin as [<-|[<-|[<-|[]]]]. }
  split; [done|]. split; [|split].
  - intros songID H. apply (Hall "id" _); [set_solver|exact H].
  - intros ytID H. apply (Hall "ytID" _); [set_solver|exact H].
  - intros key H. apply (Hall "key" _); [set_solver|exact H].
Qed.

(** C7: when the row a lookup selects has a key that does not split into
    exactly two parts on ["---"], GetSong fails with the corrupt-record
    error and returns no Song; when the key splits into exactly two parts,
    they are the Title and the Artist of the Song returned. *)
Theorem GetSong_key_decomposition filterKey value e r rows :
  strings.Contains FILTER_KEYS filterKey = true →
  healthy e →
  select_songs (song_query filterKey) value (songs e) = inr (r :: rows) →
  (length (strings.Split (row_key r) "---") ≠ 2 →
     (GetSong select_songs filterKey value e).1 = (emptySong, false, Some InvalidKeyFormat)
     ∧ classify InvalidKeyFormat = Some CorruptRecord) ∧
  (∀ title artist,
     strings.Split (row_key r) "---" = [title; artist] →
     (GetSong select_songs filterKey value e).1
       = (mkSong title artist (row_ytID r), true, None)).
Proof.
  intros Hf Hh Hsel. rewrite GetSong_healthy, Hsel by done. split.
  - intros Hlen. split; [|done].
    destruct (strings.Split _ _) as [|p0 [|p1 [|p2 parts]]]; done.
  - by intros title artist ->.
Qed.

(** C10: whenever GetSong returns an error (invalid filter, failed read or
    corrupt key), the Song it returns is the zero value and the found flag
    is false. *)
Theorem GetSong_error_returns_zero_song filterKey value e song found err e' :
  GetSong select_songs filterKey value e = ((song, found, Some err), e') →
  song = emptySong ∧ found = false ∧
  (err = InvalidFilterKey ∨ (∃ cause, err = FailedToRetrieveSong cause) ∨ err = InvalidKeyFormat).
Proof.
  unfold GetSong, db_QueryRow, row_Scan.
  destruct (negb _); [by returned_error|].
  destruct (call _ e) as [[msg|] e1]; [by returned_error|].
  destruct (select_songs _ _ _) as [cause|rows].
  - destruct cause; by returned_error.
  - destruct (call _ e1) as [[msg|] e2]; [by returned_error|].
    destruct rows as [|r rows]; [done|]. cbn [Title YouTubeID].
    repeat case_match; by returned_error.
Qed.

End SongQueryProperties.

Lemma GetSong_not_found_witness :
  healthy emptyEngine ∧
  (GetSongByID sqlite_select 9999999 emptyEngine).1 = (emptySong, false, None).
Proof.
  split; [constructor|].
  apply (proj1 (proj2 (GetSong_not_found sqlite_select emptyEngine healthy_emptyEngine))).
  reflexivity.
Defined.

Lemma GetSong_key_decomposition_witness :
  (GetSongByID sqlite_select 7 sampleEngine).1 = (emptySong, false, Some InvalidKeyFormat) ∧
  (GetSongByKey sqlite_select "Song A---Artist X" sampleEngine).1
    = (mkSong "Song A" "Artist X" "yt123", true, None).
Proof.
  split.
  - apply (GetSong_key_decomposition sqlite_select "id" (ArgUint32 7) sampleEngine
             (mkSongRow 7 "a---b---c" "yt7") []); [reflexivity|constructor|reflexivity|].
    vm_compute. lia.
  - apply (GetSong_key_decomposition sqlite_select "key" (ArgString "Song A---Artist X")
             sampleEngine (mkSongRow 42 "Song A---Artist X" "yt123") []);
      [reflexivity|constructor|reflexivity..].
Defined.

Lemma GetSong_error_returns_zero_song_witness :
  ∃ song found,
    GetSong sqlite_select "id" (ArgUint32 7) sampleEngine
      = ((song, found, Some InvalidKeyFormat),
         (GetSong sqlite_select "id" (ArgUint32 7) sampleEngine).2)
    ∧ song = emptySong ∧ found = false.
Proof.
  exists emptySong, false. split; [reflexivity|].
  destruct (GetSong_error_returns_zero_song sqlite_select "id" (ArgUint32 7) sampleEngine
              emptySong false InvalidKeyFormat
              (GetSong sqlite_select "id" (ArgUint32 7) sampleEngine).2)
    as (Hsong & Hfound & _); [reflexivity|].
  split; [exact Hsong|exact Hfound].
Defined.

(** ** Registration *)

Lemma unique_message_recognised column :
  column ∈ ["id"; "key"; "ytID"] →
  strings.Contains (DriverErr_Error (DriverMsg ("UNIQUE constraint failed: songs." ++ column)))
    "UNIQUE constraint failed" = true.
Proof.
  intros H. apply list_elem_of_In in H. simpl in H.
  by destruct H as [<-|[<-|[<-|[]]]].
Qed.

(** C8: RegisterSong fails, leaving the registry as it was, whenever the key
    derived from (title, artist) or the ytID is already registered, with the
    duplicate-song error when the engine runs the insertion; a driver failure
    whose message does not report a uniqueness violation gives the
    write error, a different error; a registration that succeeds returns the
    songID it was given and stores the song under it. *)
Theorem RegisterSong_outcomes songID songTitle songArtist ytID e :
  let key := GenerateSongKey songTitle songArtist in
  let result := RegisterSong songID songTitle songArtist ytID e in
  (key ∈ row_key <$> songs e ∨ ytID ∈ row_ytID <$> songs e →
     (∃ err, result.1 = (0%N, Some err)) ∧
     songs result.2 = songs e ∧
     (next_fault e = None →
        ∃ cause, result.1 = (0%N, Some (SongAlreadyExists cause))
                 ∧ classify (SongAlreadyExists cause) = Some DuplicateSong)) ∧
  (∀ msg,
     next_fault e = Some msg →
     strings.Contains msg "UNIQUE constraint failed" = false →
     result.1 = (0%N, Some (FailedToRegisterSong (DriverMsg msg)))
     ∧ classify (FailedToRegisterSong (DriverMsg msg)) = Some WriteError
     ∧ DuplicateSong ≠ WriteError
     ∧ songs result.2 = songs e) ∧
  (∀ id,
     result.1 = (id, None) →
     id = songID ∧ songs result.2 = (songs e ++ [mkSongRow songID key ytID])%list).
Proof.
  intros key result. subst result.
  unfold RegisterSong, db_Exec_insert_song, call. fold key. cbn [row_id row_key row_ytID songs].
  split; [|split].
  - intros Hdup. destruct (next_fault e) as [msg|].
    + cbn [DriverErr_Error]. destruct (strings.Contains msg _); split; eauto.
      all: split; [done|]; done.
    + repeat case_bool_decide.
      all: try (split; [by eauto|]; split; [done|]; intros _; by eauto).
      by destruct Hdup.
  - intros msg -> Hmsg. cbn [DriverErr_Error]. by rewrite Hmsg.
  - intros id. destruct (next_fault e) as [msg|].
    + cbn [DriverErr_Error]. by destruct (strings.Contains msg _).
    + repeat case_bool_decide; try done. by intros [= <-].
Qed.

Lemma RegisterSong_outcomes_witness :
  (∃ cause, (RegisterSong 43 "Song A" "Artist X" "yt999" sampleEngine).1
            = (0%N, Some (SongAlreadyExists cause))) ∧
  (∃ cause, (RegisterSong 43 "Song B" "Artist Y" "yt123" sampleEngine).1
            = (0%N, Some (SongAlreadyExists cause))) ∧
  (RegisterSong 43 "Song B" "Artist Y" "yt999"
     (mkEngine ∅ [] None [Some "disk I/O error"] [])).1
    = (0%N, Some (FailedToRegisterSong (DriverMsg "disk I/O error"))) ∧
  songs (RegisterSong 43 "Song B" "Artist Y" "yt999" sampleEngine).2
    = (songs sampleEngine ++ [mkSongRow 43 "Song B---Artist Y" "yt999"])%list.
Proof.
  split; [|split; [|split]].
  - destruct (proj1 (RegisterSong_outcomes 43 "Song A" "Artist X" "yt999" sampleEngine))
      as (_ & _ & H).
    + left. vm_compute. set_solver.
    + destruct (H eq_refl) as (cause & Hcause & _). by exists cause.
  - destruct (proj1 (RegisterSong_outcomes 43 "Song B" "Artist Y" "yt123" sampleEngine))
      as (_ & _ & H).
    + right. vm_compute. set_solver.
    + destruct (H eq_refl) as (cause & Hcause & _). by exists cause.
  - apply (proj1 (proj2 (RegisterSong_outcomes 43 "Song B" "Artist Y" "yt999"
                           (mkEngine ∅ [] None [Some "disk I/O error"] []))));
      reflexivity.
  - apply (proj2 (proj2 (RegisterSong_outcomes 43 "Song B" "Artist Y" "yt999" sampleEngine))
             43%N).
    reflexivity.
Defined.

(** ** Backend selection *)

(** Against C9 as stated: a configuration value that is set to the empty
    string is neither of the two variant values, and the document backend is
    selected for it. *)
Lemma NewDbClient_empty_value_selects_document :
  ¬ (∀ environ value,
       environ !! "STORAGE_TYPE" = Some value →
       value ≠ "mongodb" → value ≠ "sqlite" →
       NewDbClient environ = inl UnsupportedDatabase).
Proof.
  intros H.
  specialize (H {[ "STORAGE_TYPE" := "" ]} "" eq_refl).
  assert (NewDbClient {[ "STORAGE_TYPE" := "" ]} = inr newMongoDB) as Hdoc by reflexivity.
  rewrite H in Hdoc; done.
Qed.

(** C9 (amended): NewDbClient selects the document backend when the
    configuration value is unset or empty, selects the matching backend for
    each of the two variant values, and fails with the unsupported-backend
    error for every other, non-empty value. *)
Theorem NewDbClient_selection environ :
  (environ !! "STORAGE_TYPE" = None ∨ environ !! "STORAGE_TYPE" = Some "" →
     NewDbClient environ = inr newMongoDB) ∧
  (environ !! "STORAGE_TYPE" = Some "mongodb" → NewDbClient environ = inr newMongoDB) ∧
  (environ !! "STORAGE_TYPE" = Some "sqlite" → NewDbClient environ = inr newSQLiteDB) ∧
  (∀ value,
     environ !! "STORAGE_TYPE" = Some value →
     value ≠ "" → value ≠ "mongodb" → value ≠ "sqlite" →
     NewDbClient environ = inl UnsupportedDatabase
     ∧ classify UnsupportedDatabase = Some UnsupportedBackend).
Proof.
  unfold NewDbClient, Getenv. split; [|split; [|split]].
  - by intros [-> | ->].
  - by intros ->.
  - by intros ->.
  - intros value -> Hempty Hmongo Hsqlite. cbn [default id].
    apply String.eqb_neq in Hempty, Hmongo, Hsqlite.
    by rewrite Hempty, Hmongo, Hsqlite.
Qed.

Lemma NewDbClient_selection_witness :
  NewDbClient ∅ = inr newMongoDB ∧
  NewDbClient {[ "STORAGE_TYPE" := "mongodb" ]} = inr newMongoDB ∧
  NewDbClient {[ "STORAGE_TYPE" := "sqlite" ]} = inr newSQLiteDB ∧
  NewDbClient {[ "STORAGE_TYPE" := "postgres" ]} = inl UnsupportedDatabase.
Proof.
  split; [|split; [|split]].
  - apply (proj1 (NewDbClient_selection ∅)). left. reflexivity.
  - apply (proj1 (proj2 (NewDbClient_selection {[ "STORAGE_TYPE" := "mongodb" ]}))).
    reflexivity.
  - apply (proj1 (proj2 (proj2 (NewDbClient_selection {[ "STORAGE_TYPE" := "sqlite" ]})))).
    reflexivity.
  - apply (proj2 (proj2 (proj2 (NewDbClient_selection {[ "STORAGE_TYPE" := "postgres" ]})))
             "postgres"); [reflexivity|discriminate..].
Defined.

(** ** The fingerprint index *)

Local Open Scope list_scope.

Lemma upsert_all_notin t entries a :
  a ∉ entries.*1 → upsert_all t entries !! a = t !! a.
Proof.
  revert t. induction entries as [|[a0 c0] entries IH]; intros t Hnotin; [done|].
  rewrite fmap_cons, not_elem_of_cons in Hnotin. destruct Hnotin as [Hne Hnotin].
  unfold upsert_all in *. cbn [foldl fst snd]. rewrite IH by done.
  by apply lookup_insert_ne.
Qed.

Lemma upsert_all_in t entries a c :
  NoDup entries.*1 → (a, c) ∈ entries → upsert_all t entries !! a = Some c.
Proof.
  revert t. induction entries as [|[a0 c0] entries IH]; intros t Hnodup Hin.
  - by apply elem_of_nil in Hin.
  - rewrite fmap_cons in Hnodup. apply NoDup_cons in Hnodup as [Hfresh Hnodup].
    apply elem_of_cons in Hin as [[= -> ->]|Hin].
    + change (upsert_all t ((a0, c0) :: entries))
        with (upsert_all (<[a0 := c0]> t) entries).
      rewrite upsert_all_notin by done. apply lookup_insert_eq.
    + by apply IH.
Qed.

(** The loop of upserts works on the view of the open transaction only. *)
Lemma upsert_each_tx entries e t r e1 :
  tx e = Some t →
  upsert_each entries e = (r, e1) →
  fingerprints e1 = fingerprints e ∧ songs e1 = songs e ∧
  match r with
  | None => tx e1 = Some (upsert_all t entries)
  | Some _ => is_Some (tx e1)
  end.
Proof.
  revert e t r e1.
  induction entries as [|[address couple] entries IH]; intros e t r e1 Htx.
  - intros [= <- <-]. done.
  - cbn [upsert_each]. unfold stmt_Exec, call. rewrite Htx.
    destruct (next_fault e) as [msg|].
    + intros [= <- <-]. cbn. eauto.
    + intros Hrest. eapply IH in Hrest as (Hf & Hs & Hr); [|reflexivity]. done.
Qed.

Lemma tx_Rollback_tables e :
  fingerprints (tx_Rollback e).2 = fingerprints e ∧
  songs (tx_Rollback e).2 = songs e ∧
  tx (tx_Rollback e).2 = None.
Proof.
  unfold tx_Rollback, call. destruct (tx e) eqn:Htx; [|done].
  by destruct (next_fault e).
Qed.

(** What [StoreFingerprints] leaves behind: the table with every upsert of
    the batch when it returns no error, the table as it was otherwise. *)
Lemma StoreFingerprints_table entries e r e' :
  StoreFingerprints entries e = (r, e') →
  songs e' = songs e ∧
  match r with
  | None => fingerprints e' = upsert_all (fingerprints e) entries ∧ tx e' = None
  | Some _ => fingerprints e' = fingerprints e
  end.
Proof.
  unfold StoreFingerprints, db_Begin, call.
  destruct (next_fault e) as [msg|]; [by intros [= <- <-]|].
  unfold defer, tx_Prepare, call. cbn [tx set_tx].
  match goal with |- context [next_fault ?e0] => destruct (next_fault e0) as [msg|] end.
  { intros [= <- <-].
    match goal with |- context [tx_Rollback ?e0] =>
      destruct (tx_Rollback_tables e0) as (-> & -> & _) end.
    done. }
  match goal with |- context [upsert_each entries ?e0] =>
    destruct (upsert_each entries e0) as [r3 e3] eqn:Hloop end.
  eapply upsert_each_tx in Hloop as (Hf & Hs & Hr); [|reflexivity].
  cbn in Hf, Hs.
  destruct r3 as [err|].
  - intros [= <- <-].
    destruct (tx_Rollback_tables e3) as (-> & -> & _). done.
  - unfold tx_Commit, call. rewrite Hr.
    destruct (next_fault e3) as [msg|]; intros [= <- <-]; cbn; by rewrite ?Hf, ?Hs.
Qed.

Lemma no_fault_in_S n what e :
  no_fault_in (S n) e ↔ next_fault e = None ∧ no_fault_in n (call what e).2.
Proof.
  unfold no_fault_in, next_fault, call. cbn [faults snd].
  destruct (faults e) as [|f fs]; cbn [take head tail mjoin].
  - rewrite take_nil. split; [done|by constructor].
  - by rewrite Forall_cons.
Qed.

Lemma healthy_no_fault_in n e : healthy e → no_fault_in n e.
Proof. unfold healthy, no_fault_in. apply Forall_take. Qed.

(** The loop of upserts runs to its end exactly when none of its statements
    fails. *)
Lemma upsert_each_faults entries e t k :
  tx e = Some t →
  match upsert_each entries e with
  | (None, e1) => no_fault_in (length entries + k) e ↔ no_fault_in k e1
  | (Some _, _) => ¬ no_fault_in (length entries + k) e
  end.
Proof.
  revert e t. induction entries as [|[address couple] entries IH]; intros e t Htx; [done|].
  cbn [upsert_each length Nat.add].
  unfold stmt_Exec. rewrite Htx. unfold call at 1.
  destruct (next_fault e) as [msg|] eqn:Hnext.
  { rewrite (no_fault_in_S _ upsert_sql). intros [H _]. congruence. }
  match goal with |- context [upsert_each entries ?e0] =>
    specialize (IH e0 _ eq_refl); destruct (upsert_each entries e0) as [[err|] e1] end.
  - rewrite (no_fault_in_S _ upsert_sql). intros [_ H]. by apply IH.
  - rewrite (no_fault_in_S _ upsert_sql), <- IH. tauto.
Qed.

(** A driver call failed: an error is returned, and the calls were not
    free of failures. *)
Ltac failed_call :=
  cbn [fst]; split; [discriminate|intros H; decompose [and] H; congruence].

(** [StoreFingerprints] returns no error exactly when none of its driver
    calls (BEGIN, the preparation, one upsert per entry, COMMIT) fails. *)
Lemma StoreFingerprints_succeeds_iff entries e :
  (StoreFingerprints entries e).1 = None ↔ no_fault_in (3 + length entries) e.
Proof.
  replace (3 + length entries) with (S (S (length entries + 1))) by lia.
  rewrite (no_fault_in_S _ "BEGIN").
  unfold StoreFingerprints, db_Begin. unfold call at 1. cbn [call snd].
  destruct (next_fault e) as [msg|]; [failed_call|].
  unfold defer, tx_Prepare. cbn [tx set_tx].
  match goal with |- context [no_fault_in _ ?e0] =>
    rewrite (no_fault_in_S _ upsert_sql e0) end.
  unfold call at 1. cbn [call snd].
  unfold next_fault at 1 2. cbn [faults set_tx].
  destruct (mjoin _) as [msg|]; [failed_call|].
  match goal with |- context [upsert_each entries ?e0] =>
    pose proof (upsert_each_faults entries e0 _ 1 eq_refl) as Hloop;
    destruct (upsert_each entries e0) as [[err|] e3] eqn:Heach end.
  { cbn [fst]. split; [done|]. intros [_ [_ H]]. by apply Hloop in H. }
  eapply upsert_each_tx in Heach as (_ & _ & Htx); [|reflexivity].
  unfold tx_Commit. rewrite Htx. unfold call at 1. cbn [call snd].
  rewrite (no_fault_in_S _ "COMMIT") in Hloop.
  destruct (next_fault e3) as [msg|]; cbn [fst].
  - split; [done|]. intros [_ [_ H]]. apply Hloop in H as [? ?]. done.
  - split; [intros _|done]. repeat split. apply Hloop. split; [done|]. constructor.
Qed.

(** C2: StoreFingerprints is all-or-nothing.  For a batch with one entry per
    address, either it returns no error and every entry of the batch is in
    the committed table (the other addresses keeping their rows), or it
    returns an error and the committed table is the one it started from; the
    first happens exactly when none of its driver calls fails. *)
Theorem StoreFingerprints_all_or_nothing entries e r e' :
  NoDup entries.*1 →
  StoreFingerprints entries e = (r, e') →
  match r with
  | None =>
      (∀ address couple, (address, couple) ∈ entries →
                         fingerprints e' !! address = Some couple) ∧
      (∀ address, address ∉ entries.*1 →
                  fingerprints e' !! address = fingerprints e !! address)
  | Some _ => fingerprints e' = fingerprints e
  end ∧
  (r = None ↔ no_fault_in (3 + length entries) e).
Proof.
  intros Hnodup Hstore. split.
  - apply StoreFingerprints_table in Hstore as [_ Htable].
    destruct r as [err|]; [done|]. destruct Htable as [-> _]. split.
    + intros address couple Hin. by apply upsert_all_in.
    + intros address Hnotin. by apply upsert_all_notin.
  - rewrite <- StoreFingerprints_succeeds_iff. by rewrite Hstore.
Qed.

Lemma sampleBatch_NoDup : NoDup sampleBatch.*1.
Proof. apply (bool_decide_unpack _). vm_compute. exact I. Qed.

Lemma StoreFingerprints_all_or_nothing_witness :
  fingerprints (StoreFingerprints sampleBatch failingEngine).2 = fingerprints failingEngine ∧
  fingerprints (StoreFingerprints sampleBatch indexedEngine).2 !! 100%N
    = Some (mkCouple 500 1).
Proof.
  split.
  - apply (proj1 (StoreFingerprints_all_or_nothing sampleBatch failingEngine
                    (Some (ErrorUpsertingDocument (DriverMsg "disk I/O error")))
                    (StoreFingerprints sampleBatch failingEngine).2
                    sampleBatch_NoDup eq_refl)).
  - apply (proj1 (proj1 (StoreFingerprints_all_or_nothing sampleBatch indexedEngine
                    None (StoreFingerprints sampleBatch indexedEngine).2
                    sampleBatch_NoDup eq_refl))).
    constructor.
Defined.

(** Reading the rows of one query, on an engine that does not fail: every row
    is appended. *)
Lemma scan_rows_healthy rows docCouples e :
  healthy e →
  ∃ e', scan_rows rows docCouples e = (inr (docCouples ++ rows), e')
        ∧ healthy e' ∧ fingerprints e' = fingerprints e.
Proof.
  revert docCouples e. induction rows as [|row rows IH]; intros docCouples e Hh.
  - cbn [scan_rows]. unfold rows_Next. rewrite (call_healthy _ _ Hh).
    eexists. split; [by rewrite app_nil_r|]. split; [by apply healthy_call|done].
  - cbn [scan_rows]. unfold rows_Next, rows_Scan. rewrite (call_healthy _ _ Hh).
    rewrite call_healthy by by apply healthy_call.
    destruct (IH (docCouples ++ [row]) (call "rows.Scan" (call "rows.Next" e).2).2)
      as (e' & -> & Hh' & Hf); [by do 2 apply healthy_call|].
    exists e'. by rewrite <- (assoc_L (++)).
Qed.

(** Reading the rows of one query, whatever fails: what was read is a prefix
    of the rows the query selected. *)
Lemma scan_rows_prefix rows docCouples e l e' :
  scan_rows rows docCouples e = (inr l, e') →
  (∃ got, l = docCouples ++ got ∧ got `prefix_of` rows) ∧ fingerprints e' = fingerprints e.
Proof.
  revert docCouples e. induction rows as [|row rows IH]; intros docCouples e.
  - cbn [scan_rows]. unfold rows_Next, call. destruct (next_fault e).
    all: intros [= <- <-]; split; [|done]; exists []; by rewrite app_nil_r.
  - cbn [scan_rows]. unfold rows_Next, call. destruct (next_fault e).
    { intros [= <- <-]. split; [|done]. exists []. rewrite app_nil_r.
      split; [done|apply prefix_nil]. }
    unfold rows_Scan, call.
    match goal with |- context [next_fault ?e0] => destruct (next_fault e0) end; [done|].
    intros Hrest. apply IH in Hrest as [(got & -> & Hgot) Hf]. split; [|done].
    exists (row :: got). rewrite <- (assoc_L (++)). split; [done|].
    by apply prefix_cons.
Qed.

(** Collecting the couples of a list of addresses, on an engine that does not
    fail: an address asked for is bound to the rows of that address, the
    other bindings of the map are kept. *)
Lemma collect_couples_healthy addresses couples e :
  healthy e →
  ∃ result e',
    collect_couples addresses couples e = (inr result, e')
    ∧ healthy e'
    ∧ ∀ address,
        result !! address =
          if decide (address ∈ addresses)
          then Some (option_list (fingerprints e !! address))
          else couples !! address.
Proof.
  revert couples e. induction addresses as [|a addresses IH]; intros couples e Hh.
  - exists couples, e. split; [done|split; [done|]]. intros address.
    by rewrite decide_False by apply not_elem_of_nil.
  - cbn [collect_couples]. unfold db_Query. rewrite (call_healthy _ _ Hh).
    cbn [call snd fingerprints].
    match goal with |- context [scan_rows ?rows [] ?e1] =>
      destruct (scan_rows_healthy rows [] e1) as (e2 & -> & Hh2 & Hf2) end.
    { by apply (healthy_call select_couples_sql). }
    destruct (IH (<[a := [] ++ option_list (fingerprints e !! a)]> couples) e2 Hh2)
      as (result & e' & -> & Hh' & Hresult).
    exists result, e'. split; [done|split; [done|]]. intros address.
    rewrite Hresult, Hf2. cbn [fingerprints].
    destruct (decide (address ∈ addresses)) as [Hin|Hnotin].
    + by rewrite decide_True by by right.
    + destruct (decide (address = a)) as [->|Hne].
      * rewrite decide_True by by left. by rewrite lookup_insert_eq.
      * rewrite decide_False by by intros [?|?]%elem_of_cons.
        by rewrite lookup_insert_ne.
Qed.

(** Collecting the couples of a list of addresses, whatever fails: when a map
    is returned, an address asked for is bound to a prefix of the rows of
    that address. *)
Lemma collect_couples_shape addresses couples e result e' :
  collect_couples addresses couples e = (inr result, e') →
  ∀ address,
    if decide (address ∈ addresses)
    then ∃ l, result !! address = Some l
              ∧ l `prefix_of` option_list (fingerprints e !! address)
    else result !! address = couples !! address.
Proof.
  revert couples e. induction addresses as [|a addresses IH]; intros couples e.
  - intros [= <- <-] address. by rewrite decide_False by apply not_elem_of_nil.
  - cbn [collect_couples]. unfold db_Query, call.
    destruct (next_fault e); [done|]. cbn [fingerprints].
    match goal with |- context [scan_rows ?rows [] ?e1] =>
      destruct (scan_rows rows [] e1) as [[err|docCouples] e2] eqn:Hscan end; [done|].
    apply scan_rows_prefix in Hscan as [(got & -> & Hgot) Hf]. cbn in Hf.
    intros Hrest address. specialize (IH _ _ Hrest address). rewrite Hf in IH.
    destruct (decide (address ∈ addresses)) as [Hin|Hnotin].
    + by rewrite decide_True by by right.
    + destruct (decide (address = a)) as [->|Hne].
      * rewrite decide_True by by left. rewrite IH, lookup_insert_eq. eauto.
      * rewrite decide_False by by intros [?|?]%elem_of_cons.
        by rewrite IH, lookup_insert_ne.
Qed.

(** C5: the map GetCouples returns is keyed by the addresses asked for, each
    bound to at most one occurrence, which is the occurrence stored for that
    address, and to none when the address has no stored occurrence; on an
    engine that does not fail GetCouples returns the map that binds each
    address asked for to its stored occurrence, or to the empty sequence when
    it has none, so an error comes from a failing driver call only. *)
Theorem GetCouples_shape addresses e :
  (∀ couples e',
     GetCouples addresses e = (inr couples, e') →
     dom couples = list_to_set addresses ∧
     ∀ address, address ∈ addresses →
       ∃ occurrences,
         couples !! address = Some occurrences
         ∧ (length occurrences ≤ 1)%nat
         ∧ occurrences `prefix_of` option_list (fingerprints e !! address)
         ∧ (∀ occurrence, occurrence ∈ occurrences →
                          fingerprints e !! address = Some occurrence)
         ∧ (fingerprints e !! address = None → occurrences = [])) ∧
  (healthy e →
     ∃ couples e',
       GetCouples addresses e = (inr couples, e')
       ∧ ∀ address,
           couples !! address =
             if decide (address ∈ addresses)
             then Some (option_list (fingerprints e !! address))
             else None) ∧
  (∀ err e', GetCouples addresses e = (inl err, e') → ∃ msg, Some msg ∈ faults e).
Proof.
  unfold GetCouples. split; [|split].
  - intros couples e' Hget. pose proof (collect_couples_shape _ _ _ _ _ Hget) as Hshape.
    split.
    + apply set_eq. intros address. rewrite elem_of_dom, elem_of_list_to_set.
      specialize (Hshape address). destruct (decide (address ∈ addresses)) as [Hin|Hnotin].
      * destruct Hshape as (l & -> & _). by split; [|eauto].
      * rewrite Hshape, lookup_empty. split; [intros H; by apply is_Some_None in H|intros H; by destruct Hnotin].
    + intros address Hin. specialize (Hshape address).
      rewrite decide_True in Hshape by done. destruct Hshape as (l & Hl & Hprefix).
      exists l. split; [done|]. apply prefix_length in Hprefix as Hlen.
      split; [|split; [done|split]].
      * etrans; [exact Hlen|]. destruct (fingerprints e !! address); simpl; lia.
      * intros occurrence Hocc. destruct Hprefix as [k Hk].
        assert (occurrence ∈ option_list (fingerprints e !! address)) as Hstored.
        { rewrite Hk. apply elem_of_app. by left. }
        destruct (fingerprints e !! address) as [stored|]; cbn [option_list] in Hstored.
        -- by apply list_elem_of_singleton in Hstored as ->.
        -- by apply elem_of_nil in Hstored.
      * intros Hnone. rewrite Hnone in Hprefix. by apply prefix_nil_inv in Hprefix.
  - intros Hh.
    destruct (collect_couples_healthy addresses ∅ e Hh) as (r & e' & H & _ & Hr).
    exists r, e'. split; [done|]. intros address. rewrite Hr. by destruct (decide _).
  - intros err e' Hget. destruct (decide (healthy e)) as [Hh|Hfault].
    + destruct (collect_couples_healthy addresses ∅ e Hh) as (r & e1 & H & _).
      congruence.
    + apply not_Forall_Exists in Hfault; [|apply _].
      apply Exists_exists in Hfault as ([msg|] & Hin & Hsome); [eauto|by destruct Hsome].
Qed.

Lemma GetCouples_shape_witness :
  ∃ couples e',
    GetCouples [100%N; 300%N] indexedEngine = (inr couples, e')
    ∧ couples !! 100%N = Some [mkCouple 1 9]
    ∧ couples !! 300%N = Some []
    ∧ dom couples = list_to_set [100%N; 300%N].
Proof.
  destruct (proj1 (proj2 (GetCouples_shape [100%N; 300%N] indexedEngine)))
    as (couples & e' & Hget & Hlookup); [constructor|].
  exists couples, e'. split; [exact Hget|]. split; [|split].
  - rewrite Hlookup. reflexivity.
  - rewrite Hlookup. reflexivity.
  - exact (proj1 (proj1 (GetCouples_shape [100%N; 300%N] indexedEngine) couples e' Hget)).
Defined.

(** What a healthy engine answers to GetCouples, binding by binding. *)
Lemma GetCouples_healthy addresses e :
  healthy e →
  ∃ couples e',
    GetCouples addresses e = (inr couples, e')
    ∧ ∀ address,
        couples !! address =
          if decide (address ∈ addresses)
          then Some (option_list (fingerprints e !! address))
          else None.
Proof.
  intros Hh. destruct (collect_couples_healthy addresses ∅ e Hh) as (r & e' & H & _ & Hr).
  exists r, e'. split; [done|]. intros address. rewrite Hr.
  by destruct (decide _).
Qed.

(** C3: round trip.  For a batch with one entry per address, once
    StoreFingerprints has returned no error, GetCouples on the addresses of
    the batch, on an engine that does not fail, returns the map that binds
    each address of the batch to the one occurrence stored for it. *)
Theorem StoreFingerprints_GetCouples_roundtrip entries e e1 :
  NoDup entries.*1 →
  StoreFingerprints entries e = (None, e1) →
  healthy e1 →
  (GetCouples entries.*1 e1).1
    = inr (list_to_map ((λ entry, (entry.1, [entry.2])) <$> entries)).
Proof.
  intros Hnodup Hstore Hh.
  apply StoreFingerprints_table in Hstore as [_ [Htable _]].
  destruct (GetCouples_healthy entries.*1 e1 Hh) as (couples & e2 & -> & Hcouples).
  cbn [fst]. f_equal. apply map_eq. intros address. rewrite Hcouples, Htable.
  assert (((λ entry : N * Couple, (entry.1, [entry.2])) <$> entries).*1 = entries.*1)
    as Hkeys.
  { rewrite <- list_fmap_compose. by apply list_fmap_ext. }
  destruct (decide (address ∈ entries.*1)) as [Hin|Hnotin].
  - apply list_elem_of_fmap in Hin as ([a couple] & -> & Hin). cbn [fst].
    rewrite (upsert_all_in _ _ _ _ Hnodup Hin). symmetry.
    apply elem_of_list_to_map_1; [by rewrite Hkeys|].
    apply list_elem_of_fmap. by exists (a, couple).
  - symmetry. apply not_elem_of_list_to_map_1. by rewrite Hkeys.
Qed.

Lemma StoreFingerprints_GetCouples_roundtrip_witness :
  (GetCouples sampleBatch.*1 (StoreFingerprints sampleBatch indexedEngine).2).1
    = inr (list_to_map ((λ entry, (entry.1, [entry.2])) <$> sampleBatch)).
Proof.
  assert (StoreFingerprints sampleBatch indexedEngine
          = (None, (StoreFingerprints sampleBatch indexedEngine).2)) as Hstore
    by (vm_compute; reflexivity).
  assert (healthy (StoreFingerprints sampleBatch indexedEngine).2) as Hhealthy
    by (vm_compute; constructor).
  exact (StoreFingerprints_GetCouples_roundtrip sampleBatch indexedEngine _
           sampleBatch_NoDup Hstore Hhealthy).
Defined.

(** C4: upsert-overwrite.  When address [a] is stored with [o1] and then
    stored again with [o2], both stores returning no error, GetCouples binds
    [a] to [o2] alone. *)
Theorem StoreFingerprints_overwrites first second a o1 o2 e e1 e2 :
  NoDup first.*1 → NoDup second.*1 →
  (a, o1) ∈ first → (a, o2) ∈ second →
  StoreFingerprints first e = (None, e1) →
  StoreFingerprints second e1 = (None, e2) →
  healthy e2 →
  fingerprints e1 !! a = Some o1
  ∧ fingerprints e2 !! a = Some o2
  ∧ (GetCouples [a] e2).1 = inr {[ a := [o2] ]}.
Proof.
  intros Hnodup1 Hnodup2 Hin1 Hin2 Hstore1 Hstore2 Hh.
  apply StoreFingerprints_table in Hstore1 as [_ [Htable1 _]].
  apply StoreFingerprints_table in Hstore2 as [_ [Htable2 _]].
  assert (fingerprints e2 !! a = Some o2) as Hsecond.
  { rewrite Htable2. by apply upsert_all_in. }
  split; [rewrite Htable1; by apply upsert_all_in|]. split; [done|].
  destruct (GetCouples_healthy [a] e2 Hh) as (couples & e3 & -> & Hcouples).
  cbn [fst]. f_equal. apply map_eq. intros address. rewrite Hcouples.
  destruct (decide (address = a)) as [->|Hne].
  - rewrite decide_True by by left. by rewrite Hsecond, lookup_singleton_eq.
  - rewrite decide_False by by intros ->%list_elem_of_singleton.
    by rewrite lookup_singleton_ne.
Qed.

Lemma StoreFingerprints_overwrites_witness :
  (GetCouples [100%N]
     (StoreFingerprints [(100%N, mkCouple 900 2)]
        (StoreFingerprints [(100%N, mkCouple 500 1)] emptyEngine).2).2).1
    = inr {[ 100%N := [mkCouple 900 2] ]}.
Proof.
  set (e1 := (StoreFingerprints [(100%N, mkCouple 500 1)] emptyEngine).2).
  set (e2 := (StoreFingerprints [(100%N, mkCouple 900 2)] e1).2).
  assert (StoreFingerprints [(100%N, mkCouple 500 1)] emptyEngine = (None, e1)) as Hfirst
    by (vm_compute; reflexivity).
  assert (StoreFingerprints [(100%N, mkCouple 900 2)] e1 = (None, e2)) as Hsecond
    by (vm_compute; reflexivity).
  assert (healthy e2) as Hhealthy by (vm_compute; constructor).
  apply (StoreFingerprints_overwrites
           [(100%N, mkCouple 500 1)] [(100%N, mkCouple 900 2)]
           100%N (mkCouple 500 1) (mkCouple 900 2) emptyEngine e1 e2);
    [apply (bool_decide_unpack _); vm_compute; exact I ..
    |constructor|constructor|exact Hfirst|exact Hsecond|exact Hhealthy].
Defined.

(** ** More on the filter of [GetSong] *)

Lemma HasPrefix_append sub post : strings.HasPrefix (sub +:+ post) sub = true.
Proof.
  induction sub as [|c sub IH]; [by destruct post|].
  rewrite append_cons. cbn [strings.HasPrefix]. by rewrite Ascii.eqb_refl.
Qed.

Lemma HasPrefix_empty sub : strings.HasPrefix "" sub = true → sub = "".
Proof. by destruct sub. Qed.

(** [strings.Contains(s, substr)] holds exactly when [substr] occurs in [s]. *)
Lemma Contains_occurs s sub :
  strings.Contains s sub = true ↔ ∃ pre post, s = pre +:+ sub +:+ post.
Proof.
  split.
  - induction s as [|c s IH]; cbn [strings.Contains].
    + intros ->%HasPrefix_empty. by exists "", "".
    + intros [Hhere|Hlater]%orb_true_iff.
      * apply HasPrefix_app in Hhere as [post ->]. by exists "", post.
      * destruct (IH Hlater) as (pre & post & ->). by exists (String c pre), post.
  - intros (pre & post & ->). induction pre as [|c pre IH].
    + change ("" +:+ sub +:+ post) with (sub +:+ post).
      destruct (sub +:+ post) eqn:Hs; cbn [strings.Contains]; rewrite <- Hs.
      * apply HasPrefix_append.
      * by rewrite HasPrefix_append.
    + rewrite append_cons. cbn [strings.Contains]. rewrite IH. apply orb_true_r.
Qed.

Lemma Contains_length s sub :
  strings.Contains s sub = true → (String.length sub ≤ String.length s)%nat.
Proof.
  intros (pre & post & ->)%Contains_occurs. rewrite !append_length. lia.
Qed.

Section FilterProperties.

Variable select_songs : string → SqlArg → list SongRow → DriverErr + list SongRow.

(** An accepted filter key never gives the invalid-filter error. *)
Lemma GetSong_accepted filterKey value e :
  strings.Contains FILTER_KEYS filterKey = true →
  (GetSong select_songs filterKey value e).1.2 ≠ Some InvalidFilterKey.
Proof.
  intros H. unfold GetSong, db_QueryRow, row_Scan, call. rewrite H. cbn [negb].
  destruct (next_fault e); [done|].
  destruct (select_songs _ _ _) as [[]|rows]; try done.
  destruct (next_fault _); [done|].
  destruct rows as [|r rows]; [done|]. simpl. by repeat case_match.
Qed.

(** X1: GetSong refuses a filter key, with the invalid-filter error and
    without any driver call (the engine is returned as it was), exactly when
    the key does not occur inside the text ["_id | ytID | key"]. *)
Theorem GetSong_refuses_iff_no_occurrence filterKey value e :
  GetSong select_songs filterKey value e = ((emptySong, false, Some InvalidFilterKey), e)
  ↔ ¬ ∃ pre post, FILTER_KEYS = pre +:+ filterKey +:+ post.
Proof.
  rewrite <- Contains_occurs. split.
  - intros Hrefused Haccepted.
    apply (GetSong_accepted filterKey value e) in Haccepted. by rewrite Hrefused in Haccepted.
  - intros Hno%not_true_is_false. by apply GetSong_refused.
Qed.

(** X2: a filter key longer than the 16 bytes of ["_id | ytID | key"] is
    always refused, before any driver call. *)
Theorem GetSong_refuses_long_keys filterKey value e :
  (16 < String.length filterKey)%nat →
  GetSong select_songs filterKey value e = ((emptySong, false, Some InvalidFilterKey), e).
Proof.
  intros Hlong. apply GetSong_refused. apply not_true_is_false.
  intros Hlen%Contains_length. change (String.length FILTER_KEYS) with 16%nat in Hlen. lia.
Qed.

End FilterProperties.

Lemma GetSong_refuses_iff_no_occurrence_witness :
  GetSong sqlite_select "title" (ArgString "Song A") sampleEngine
    = ((emptySong, false, Some InvalidFilterKey), sampleEngine).
Proof.
  apply (proj2 (GetSong_refuses_iff_no_occurrence sqlite_select "title"
                  (ArgString "Song A") sampleEngine)).
  rewrite <- Contains_occurs. vm_compute. discriminate.
Defined.

Lemma GetSong_refuses_long_keys_witness :
  GetSong sqlite_select "id = 1 OR ytID = 2" (ArgUint32 7) sampleEngine
    = ((emptySong, false, Some InvalidFilterKey), sampleEngine).
Proof.
  apply (GetSong_refuses_long_keys sqlite_select "id = 1 OR ytID = 2" (ArgUint32 7) sampleEngine).
  vm_compute. lia.
Defined.

(** ** What a lookup returns, and what reading leaves alone *)

(** X3: when GetSong finds a song, the row the engine selected has the key
    that GenerateSongKey builds from the Title and the Artist returned, and
    the YouTubeID returned is the ytID of that row. *)
Theorem GetSong_found_regenerates_key select_songs filterKey value e song e' :
  GetSong select_songs filterKey value e = ((song, true, None), e') →
  ∃ r rows,
    select_songs (song_query filterKey) value (songs e) = inr (r :: rows)
    ∧ GenerateSongKey (Title song) (Artist song) = row_key r
    ∧ YouTubeID song = row_ytID r.
Proof.
  unfold GetSong, db_QueryRow, row_Scan, call.
  destruct (negb _); [done|].
  destruct (next_fault e); [done|]. cbn [songs].
  destruct (select_songs _ _ _) as [[]|rows]; try done.
  destruct (next_fault _); [done|].
  destruct rows as [|r rows]; [done|]. cbn [Title YouTubeID].
  destruct (strings.Split (row_key r) "---") as [|part0 [|part1 [|part2 parts]]] eqn:Hsplit;
    try done.
  intros [= <- _]. exists r, rows. split; [done|]. split; [|done].
  cbn [Title Artist]. unfold GenerateSongKey.
  rewrite <- (Join_Split (row_key r) "---") by done. by rewrite Hsplit.
Qed.

Lemma GetSong_found_regenerates_key_witness :
  ∃ r rows,
    sqlite_select (song_query "ytID") (ArgString "yt123") (songs sampleEngine) = inr (r :: rows)
    ∧ GenerateSongKey "Song A" "Artist X" = row_key r
    ∧ "yt123" = row_ytID r.
Proof.
  apply (GetSong_found_regenerates_key sqlite_select "ytID" (ArgString "yt123") sampleEngine
           (mkSong "Song A" "Artist X" "yt123")
           (GetSongByYTID sqlite_select "yt123" sampleEngine).2).
  vm_compute. reflexivity.
Defined.

Lemma same_tables_refl e : same_tables e e.
Proof. done. Qed.

Lemma same_tables_trans e1 e2 e3 : same_tables e1 e2 → same_tables e2 e3 → same_tables e1 e3.
Proof. unfold same_tables. intros (-> & -> & ->) (-> & -> & ->). done. Qed.

Lemma call_same_tables what e : same_tables e (call what e).2.
Proof. done. Qed.

Lemma GetSong_same_tables select_songs filterKey value e :
  same_tables e (GetSong select_songs filterKey value e).2.
Proof.
  unfold GetSong, db_QueryRow, row_Scan, call.
  destruct (negb _); [done|].
  destruct (next_fault e); [done|].
  destruct (select_songs _ _ _) as [[]|rows]; try done.
  destruct (next_fault _); [done|].
  destruct rows as [|r rows]; [done|]. simpl. by repeat case_match.
Qed.

Lemma scan_rows_same_tables rows docCouples e :
  same_tables e (scan_rows rows docCouples e).2.
Proof.
  revert docCouples e. induction rows as [|row rows IH]; intros docCouples e.
  - cbn [scan_rows]. unfold rows_Next, call. by destruct (next_fault e).
  - cbn [scan_rows]. unfold rows_Next, call. destruct (next_fault e); [done|].
    unfold rows_Scan, call.
    match goal with |- context [next_fault ?e0] => destruct (next_fault e0) end; [done|].
    eapply same_tables_trans; [|apply IH]. done.
Qed.

Lemma collect_couples_same_tables addresses couples e :
  same_tables e (collect_couples addresses couples e).2.
Proof.
  revert couples e. induction addresses as [|a addresses IH]; intros couples e; [done|].
  cbn [collect_couples]. unfold db_Query, call. destruct (next_fault e); [done|].
  match goal with |- context [scan_rows ?rows [] ?e1] =>
    pose proof (scan_rows_same_tables rows [] e1) as Hscan;
    destruct (scan_rows rows [] e1) as [[err|docCouples] e2] end.
  - exact Hscan.
  - eapply same_tables_trans; [exact Hscan|apply IH].
Qed.

Lemma TotalSongs_same_tables e : same_tables e (TotalSongs e).2.
Proof.
  unfold TotalSongs, db_QueryRow_count, row_Scan_count, call.
  destruct (next_fault e); [done|].
  by match goal with |- context [next_fault ?e0] => destruct (next_fault e0) end.
Qed.

(** X4: the reading operations GetSong, GetCouples and TotalSongs leave both
    tables and the transaction state as they found them, whatever they return
    and whichever driver call fails. *)
Theorem reads_change_nothing select_songs filterKey value addresses e :
  same_tables e (GetSong select_songs filterKey value e).2
  ∧ same_tables e (GetCouples addresses e).2
  ∧ same_tables e (TotalSongs e).2.
Proof.
  split; [apply GetSong_same_tables|].
  split; [apply collect_couples_same_tables|apply TotalSongs_same_tables].
Qed.

(** ** More on registration and deletion *)

(** The two ways a registration ends. *)
Lemma RegisterSong_cases songID songTitle songArtist ytID e :
  let key := GenerateSongKey songTitle songArtist in
  let result := RegisterSong songID songTitle songArtist ytID e in
  (result.1 = (songID, None)
   ∧ next_fault e = None
   ∧ (songID ∉ row_id <$> songs e)
   ∧ (key ∉ row_key <$> songs e)
   ∧ (ytID ∉ row_ytID <$> songs e)
   ∧ songs result.2 = songs e ++ [mkSongRow songID key ytID])
  ∨ ((∃ err, result.1 = (0%N, Some err))
     ∧ songs result.2 = songs e
     ∧ ¬ (next_fault e = None
          ∧ (songID ∉ row_id <$> songs e)
          ∧ (key ∉ row_key <$> songs e)
          ∧ (ytID ∉ row_ytID <$> songs e))).
Proof.
  intros key result. subst result.
  unfold RegisterSong, db_Exec_insert_song, call. fold key.
  cbn [row_id row_key row_ytID songs].
  destruct (next_fault e) as [msg|].
  { right. cbn [DriverErr_Error].
    destruct (strings.Contains msg _); (split; [by eauto|]); (split; [done|]); by intros []. }
  repeat case_bool_decide.
  all: try (right; split; [by eauto|]; split; [done|]; by intros (_ & ? & ? & ?)).
  left. done.
Qed.

(** X5: RegisterSong returns no error exactly when the insertion does not
    fail in the driver and neither the id drawn, nor the key, nor the ytID is
    already in the registry; whenever it returns an error it returns id 0 and
    the registry is the one it started from. *)
Theorem RegisterSong_succeeds_iff_fresh songID songTitle songArtist ytID e :
  let key := GenerateSongKey songTitle songArtist in
  let result := RegisterSong songID songTitle songArtist ytID e in
  (result.1.2 = None
   ↔ next_fault e = None
     ∧ (songID ∉ row_id <$> songs e)
     ∧ (key ∉ row_key <$> songs e)
     ∧ (ytID ∉ row_ytID <$> songs e))
  ∧ (result.1.2 ≠ None → result.1.1 = 0%N ∧ songs result.2 = songs e).
Proof.
  cbv zeta.
  pose proof (RegisterSong_cases songID songTitle songArtist ytID e) as Hcases.
  cbv zeta in Hcases.
  destruct Hcases as [(Hres & Hfresh) | ((err & Hres) & Hsongs & Hnot)].
  - rewrite Hres. cbn [fst snd]. split; [|done]. split; [intros _|done].
    by destruct Hfresh as (? & ? & ? & ? & _).
  - rewrite Hres. cbn [fst snd]. split; [|done]. split; [done|]. intros H. by destruct Hnot.
Qed.

Lemma RegisterSong_succeeds_iff_fresh_witness :
  (RegisterSong 43 "Song B" "Artist Y" "yt999" sampleEngine).1.2 = None
  ∧ (RegisterSong 42 "Song B" "Artist Y" "yt999" sampleEngine).1.1 = 0%N.
Proof.
  split.
  - apply (proj1 (RegisterSong_succeeds_iff_fresh 43 "Song B" "Artist Y" "yt999" sampleEngine)).
    split; [reflexivity|].
    repeat split; apply (bool_decide_unpack _); vm_compute; exact I.
  - apply (proj2 (RegisterSong_succeeds_iff_fresh 42 "Song B" "Artist Y" "yt999" sampleEngine)).
    vm_compute. discriminate.
Defined.

(** X6: when the id drawn for a new song is already the id of a registered
    song, RegisterSong fails with the already-exists error and the registered
    song is kept: nothing is overwritten. *)
Theorem RegisterSong_id_collision songID songTitle songArtist ytID e :
  next_fault e = None →
  songID ∈ row_id <$> songs e →
  RegisterSong songID songTitle songArtist ytID e
  = ((0%N, Some (SongAlreadyExists (DriverMsg "UNIQUE constraint failed: songs.id"))),
     (call insert_song_sql e).2).
Proof.
  intros Hnext Hin. unfold RegisterSong, db_Exec_insert_song, call at 1. rewrite Hnext.
  cbn [row_id songs call snd]. by rewrite bool_decide_eq_true_2.
Qed.

Lemma RegisterSong_id_collision_witness :
  (RegisterSong 42 "Song B" "Artist Y" "yt999" sampleEngine).1
  = (0%N, Some (SongAlreadyExists (DriverMsg "UNIQUE constraint failed: songs.id")))
  ∧ songs (RegisterSong 42 "Song B" "Artist Y" "yt999" sampleEngine).2 = songs sampleEngine.
Proof.
  rewrite (RegisterSong_id_collision 42 "Song B" "Artist Y" "yt999" sampleEngine).
  - split; reflexivity.
  - reflexivity.
  - apply (bool_decide_unpack _). vm_compute. exact I.
Defined.

Lemma filter_keep_all {A} (P : A → Prop) `{∀ x, Decision (P x)} (l : list A) :
  (∀ x, x ∈ l → P x) → filter P l = l.
Proof.
  induction l as [|x l IH]; intros Hall; [done|].
  rewrite filter_cons_True by (apply Hall; by left).
  f_equal. apply IH. intros y Hy. apply Hall. by right.
Qed.

Lemma filter_keep_none {A} (P : A → Prop) `{∀ x, Decision (P x)} (l : list A) :
  (∀ x, x ∈ l → ¬ P x) → filter P l = [].
Proof.
  induction l as [|x l IH]; intros Hnone; [done|].
  rewrite filter_cons_False by (apply Hnone; by left).
  apply IH. intros y Hy. apply Hnone. by right.
Qed.

(** In a column without repetition, the rows that agree with a stored row on
    that column are that row alone. *)
Lemma filter_unique {A B} `{EqDecision B} (f : A → B) (l : list A) (r : A) :
  NoDup (f <$> l) → r ∈ l → filter (λ x, f x = f r) l = [r].
Proof.
  induction l as [|x l IH]; intros Hnodup Hin; [by apply elem_of_nil in Hin|].
  rewrite fmap_cons in Hnodup. apply NoDup_cons in Hnodup as [Hfresh Hnodup].
  apply elem_of_cons in Hin as [->|Hin].
  - rewrite filter_cons_True by done. f_equal. apply filter_keep_none.
    intros y Hy Heq. apply Hfresh. rewrite <- Heq. by apply list_elem_of_fmap_2.
  - rewrite filter_cons_False; [by apply IH|].
    intros Heq. apply Hfresh. rewrite Heq. by apply list_elem_of_fmap_2.
Qed.

Lemma NoDup_fmap_filter {A B} (f : A → B) (P : A → Prop) `{∀ x, Decision (P x)}
    (l : list A) :
  NoDup (f <$> l) → NoDup (f <$> filter P l).
Proof.
  intros Hnodup. eapply sublist_NoDup; [exact Hnodup|].
  apply fmap_sublist, sublist_filter.
Qed.

Lemma DeleteSongByID_cases songID e :
  match next_fault e with
  | Some msg =>
      DeleteSongByID songID e
      = (Some (FailedToDeleteSong (DriverMsg msg)), (call delete_song_sql e).2)
  | None =>
      DeleteSongByID songID e
      = (None, set_songs (filter (λ r, row_id r ≠ songID) (songs e)) (call delete_song_sql e).2)
  end.
Proof.
  unfold DeleteSongByID, db_Exec_delete_song, call at 1 3. by destruct (next_fault e).
Qed.

Lemma RegisterSong_healthy songID songTitle songArtist ytID e :
  healthy e → healthy (RegisterSong songID songTitle songArtist ytID e).2.
Proof.
  intros Hh. unfold RegisterSong, db_Exec_insert_song.
  rewrite (call_healthy _ _ Hh). apply (healthy_call insert_song_sql) in Hh.
  repeat case_bool_decide; done.
Qed.

Lemma DeleteSongByID_healthy songID e :
  healthy e → healthy (DeleteSongByID songID e).2.
Proof.
  intros Hh. pose proof (DeleteSongByID_cases songID e) as Hcases.
  rewrite (healthy_next_fault _ Hh) in Hcases. rewrite Hcases.
  by apply (healthy_call delete_song_sql) in Hh.
Qed.

(** X7: the constraints of table songs (no two rows with the same id, the
    same key or the same ytID) are an invariant of the registry: RegisterSong
    and DeleteSongByID keep them, whatever they return. *)
Theorem songs_constraints_kept songID songTitle songArtist ytID e :
  songs_constraints (songs e) →
  songs_constraints (songs (RegisterSong songID songTitle songArtist ytID e).2)
  ∧ songs_constraints (songs (DeleteSongByID songID e).2).
Proof.
  intros (Hid & Hkey & Hyt). split.
  - pose proof (RegisterSong_cases songID songTitle songArtist ytID e) as Hcases.
    cbv zeta in Hcases.
    destruct Hcases as [(_ & _ & Hfid & Hfkey & Hfyt & ->) | (_ & -> & _)]; [|done].
    unfold songs_constraints. rewrite !fmap_app. cbn [fmap list_fmap row_id row_key row_ytID].
    repeat split; apply NoDup_app; (split; [done|]);
      (split; [|apply NoDup_singleton]); intros x Hx ->%list_elem_of_singleton; done.
  - pose proof (DeleteSongByID_cases songID e) as Hcases.
    destruct (next_fault e); rewrite Hcases; [done|]. cbn [songs set_songs call snd].
    unfold songs_constraints.
    repeat split; by apply NoDup_fmap_filter.
Qed.

Lemma sampleEngine_constraints : songs_constraints (songs sampleEngine).
Proof. repeat split; apply (bool_decide_unpack _); vm_compute; exact I. Qed.

Lemma songs_constraints_kept_witness :
  songs_constraints (songs (RegisterSong 43 "Song B" "Artist Y" "yt999" sampleEngine).2)
  ∧ songs_constraints (songs (DeleteSongByID 43 sampleEngine).2).
Proof.
  exact (songs_constraints_kept 43 "Song B" "Artist Y" "yt999" sampleEngine
           sampleEngine_constraints).
Defined.

Lemma delete_absent songID e :
  next_fault e = None →
  songID ∉ row_id <$> songs e →
  (DeleteSongByID songID e).1 = None ∧ songs (DeleteSongByID songID e).2 = songs e.
Proof.
  intros Hnext Habsent. pose proof (DeleteSongByID_cases songID e) as Hcases.
  rewrite Hnext in Hcases. rewrite Hcases. cbn [fst snd songs set_songs call].
  split; [done|]. apply filter_keep_all.
  intros r Hr Heq. apply Habsent. rewrite <- Heq. by apply list_elem_of_fmap_2.
Qed.

Lemma delete_removes songID e :
  next_fault e = None →
  (DeleteSongByID songID e).1 = None
  ∧ songID ∉ row_id <$> songs (DeleteSongByID songID e).2.
Proof.
  intros Hnext. pose proof (DeleteSongByID_cases songID e) as Hcases.
  rewrite Hnext in Hcases. rewrite Hcases. cbn [fst snd songs set_songs call].
  split; [done|]. intros (r & -> & Hr)%list_elem_of_fmap.
  by apply list_elem_of_filter in Hr as [Hne _].
Qed.

(** X8: deleting an id that no song has is not an error and leaves the
    registry as it was; after a DeleteSongByID that the driver ran no song
    has the id, so that deleting the same id again changes nothing. *)
Theorem DeleteSongByID_absent songID e :
  next_fault e = None →
  (songID ∉ row_id <$> songs e →
     (DeleteSongByID songID e).1 = None ∧ songs (DeleteSongByID songID e).2 = songs e)
  ∧ (songID ∉ row_id <$> songs (DeleteSongByID songID e).2)
  ∧ (next_fault (DeleteSongByID songID e).2 = None →
     (DeleteSongByID songID (DeleteSongByID songID e).2).1 = None
     ∧ songs (DeleteSongByID songID (DeleteSongByID songID e).2).2
       = songs (DeleteSongByID songID e).2).
Proof.
  intros Hnext. split; [by apply delete_absent|].
  destruct (delete_removes songID e Hnext) as [_ Hgone]. split; [done|].
  intros Hnext'. by apply delete_absent.
Qed.

Lemma DeleteSongByID_absent_witness :
  (DeleteSongByID 9999999 sampleEngine).1 = None
  ∧ songs (DeleteSongByID 9999999 sampleEngine).2 = songs sampleEngine.
Proof.
  apply (proj1 (DeleteSongByID_absent 9999999 sampleEngine eq_refl)).
  apply (bool_decide_unpack _). vm_compute. exact I.
Defined.

(** X9: DeleteSongByID undoes RegisterSong: after a registration that
    returned no error, deleting the id it returned (the driver not failing)
    gives back the registry the registration started from. *)
Theorem DeleteSongByID_undoes_RegisterSong songID songTitle songArtist ytID e e1 :
  RegisterSong songID songTitle songArtist ytID e = ((songID, None), e1) →
  next_fault e1 = None →
  (DeleteSongByID songID e1).1 = None
  ∧ songs (DeleteSongByID songID e1).2 = songs e.
Proof.
  intros Hreg Hnext.
  pose proof (RegisterSong_cases songID songTitle songArtist ytID e) as Hcases.
  cbv zeta in Hcases. rewrite Hreg in Hcases. cbn [fst snd] in Hcases.
  destruct Hcases as [(_ & _ & Hfid & _ & _ & Hsongs) | ((err & [=]) & _)].
  pose proof (DeleteSongByID_cases songID e1) as Hdel.
  rewrite Hnext in Hdel. rewrite Hdel. cbn [fst snd songs set_songs call]. split; [done|].
  rewrite Hsongs, filter_app, filter_cons_False, filter_nil, app_nil_r by (cbn; tauto).
  apply filter_keep_all. intros r Hr Heq. apply Hfid. rewrite <- Heq.
  by apply list_elem_of_fmap_2.
Qed.

Lemma DeleteSongByID_undoes_RegisterSong_witness :
  songs (DeleteSongByID 43
           (RegisterSong 43 "Song B" "Artist Y" "yt999" sampleEngine).2).2
  = songs sampleEngine.
Proof.
  apply (DeleteSongByID_undoes_RegisterSong 43 "Song B" "Artist Y" "yt999" sampleEngine
           (RegisterSong 43 "Song B" "Artist Y" "yt999" sampleEngine).2);
    vm_compute; reflexivity.
Defined.

Lemma TotalSongs_healthy e :
  healthy e → (TotalSongs e).1 = (N.of_nat (length (songs e)), None).
Proof.
  intros Hh. unfold TotalSongs, db_QueryRow_count, row_Scan_count.
  rewrite (call_healthy _ _ Hh). by rewrite call_healthy by by apply healthy_call.
Qed.

Lemma TotalSongs_error e : (TotalSongs e).1.2 ≠ None → (TotalSongs e).1.1 = 0%N.
Proof.
  unfold TotalSongs, db_QueryRow_count, row_Scan_count, call.
  destruct (next_fault e); [done|].
  by match goal with |- context [next_fault ?e0] => destruct (next_fault e0) end.
Qed.

Lemma length_filter_other {A B} `{EqDecision B} (f : A → B) (v : B) (l : list A) :
  NoDup (f <$> l) → v ∈ f <$> l →
  S (length (filter (λ x, f x ≠ v) l)) = length l.
Proof.
  induction l as [|x l IH]; intros Hnodup Hin; [by apply elem_of_nil in Hin|].
  rewrite fmap_cons in Hnodup, Hin. apply NoDup_cons in Hnodup as [Hfresh Hnodup].
  destruct (decide (f x = v)) as [Heq|Hne].
  - rewrite filter_cons_False by tauto. cbn [length]. f_equal.
    f_equal. apply filter_keep_all. intros y Hy Hv. apply Hfresh.
    rewrite Heq, <- Hv. by apply list_elem_of_fmap_2.
  - rewrite filter_cons_True by done. cbn [length]. f_equal. apply IH; [done|].
    by apply elem_of_cons in Hin as [?|?].
Qed.

(** X10: TotalSongs returns the number of registered songs when the driver
    does not fail, and 0 together with the error otherwise.  A registration
    that returns no error raises the count by one; deleting the id of a
    registered song lowers it by one. *)
Theorem TotalSongs_counts songID songTitle songArtist ytID e :
  ((TotalSongs e).1.2 ≠ None → (TotalSongs e).1.1 = 0%N) ∧
  (healthy e →
     (TotalSongs e).1 = (N.of_nat (length (songs e)), None)
     ∧ ((RegisterSong songID songTitle songArtist ytID e).1.2 = None →
        (TotalSongs (RegisterSong songID songTitle songArtist ytID e).2).1
        = (((TotalSongs e).1.1 + 1)%N, None))
     ∧ (songs_constraints (songs e) → songID ∈ row_id <$> songs e →
        ((TotalSongs (DeleteSongByID songID e).2).1.1 + 1)%N = (TotalSongs e).1.1)).
Proof.
  split; [apply TotalSongs_error|]. intros Hh.
  rewrite (TotalSongs_healthy e Hh). split; [done|]. cbn [fst]. split.
  - intros Hok. rewrite TotalSongs_healthy by by apply RegisterSong_healthy.
    pose proof (RegisterSong_cases songID songTitle songArtist ytID e) as Hcases.
    cbv zeta in Hcases.
    destruct Hcases as [(_ & _ & _ & _ & _ & ->) | ((err & Herr) & _)].
    + rewrite length_app. cbn [length]. f_equal. lia.
    + by rewrite Herr in Hok.
  - intros (Hid & _) Hin. rewrite TotalSongs_healthy by by apply DeleteSongByID_healthy.
    pose proof (DeleteSongByID_cases songID e) as Hdel.
    rewrite (healthy_next_fault _ Hh) in Hdel. rewrite Hdel.
    cbn [fst snd songs set_songs call].
    rewrite <- (length_filter_other row_id songID (songs e)) by done. lia.
Qed.

Lemma TotalSongs_counts_witness :
  (TotalSongs sampleEngine).1 = (2%N, None)
  ∧ (TotalSongs (RegisterSong 43 "Song B" "Artist Y" "yt999" sampleEngine).2).1
    = (((TotalSongs sampleEngine).1.1 + 1)%N, None)
  ∧ ((TotalSongs (DeleteSongByID 42 sampleEngine).2).1.1 + 1)%N
    = (TotalSongs sampleEngine).1.1.
Proof.
  destruct (proj2 (TotalSongs_counts 42 "Song B" "Artist Y" "yt999" sampleEngine))
    as (Hcount & _ & Hdelete); [constructor|].
  destruct (proj2 (TotalSongs_counts 43 "Song B" "Artist Y" "yt999" sampleEngine))
    as (_ & Hregister & _); [constructor|].
  split; [exact Hcount|]. split.
  - apply Hregister. reflexivity.
  - apply (Hdelete sampleEngine_constraints).
    apply (bool_decide_unpack _). vm_compute. exact I.
Defined.

(** ** Registering and looking up *)

Lemma genSplit_no_sep sep cur s :
  strings.Contains s sep = false →
  strings.genSplit sep cur 0 s = [string_of_list_ascii (rev cur) +:+ s].
Proof.
  revert cur. induction s as [|c s IH]; intros cur Hno.
  - cbn [strings.genSplit]. by rewrite append_empty.
  - cbn [strings.Contains] in Hno. apply orb_false_iff in Hno as [Hhere Hlater].
    cbn [strings.genSplit]. rewrite Hhere, IH by done.
    cbn [rev]. by rewrite string_of_snoc.
Qed.

Lemma HasPrefix_nil s : strings.HasPrefix s "" = true.
Proof. by destruct s. Qed.

Lemma HasPrefix_dashes c t rest :
  strings.HasPrefix (String c t +:+ "---" +:+ rest) "---"
  = strings.HasPrefix (String c t +:+ "--") "---".
Proof.
  destruct t as [|d [|e t]]; [reflexivity..|].
  rewrite !append_cons. cbn [strings.HasPrefix]. by rewrite !HasPrefix_nil.
Qed.

Lemma genSplit_key title artist cur :
  strings.Contains (title +:+ "--") "---" = false →
  strings.Contains artist "---" = false →
  strings.genSplit "---" cur 0 (title +:+ "---" +:+ artist)
  = [string_of_list_ascii (rev cur) +:+ title; artist].
Proof.
  intros Htitle Hartist. revert cur Htitle.
  induction title as [|c title IH]; intros cur Htitle.
  - change ("" +:+ "---" +:+ artist) with (String "-" (String "-" (String "-" artist))).
    cbn. rewrite append_empty. f_equal.
    destruct artist; [done|]. by rewrite genSplit_no_sep.
  - assert (strings.HasPrefix (String c title +:+ "--") "---" = false
            ∧ strings.Contains (title +:+ "--") "---" = false) as [Hhere Hlater].
    { rewrite append_cons in Htitle. cbn [strings.Contains] in Htitle.
      by apply orb_false_iff in Htitle. }
    rewrite <- (HasPrefix_dashes c title artist) in Hhere.
    rewrite append_cons in *. cbn [strings.genSplit]. rewrite Hhere, IH by done.
    cbn [rev]. by rewrite string_of_snoc.
Qed.

(** The key of a song splits back into its title and its artist when no
    ["---"] starts inside the title (its last bytes followed by the dashes of
    the separator included) and none occurs in the artist. *)
Lemma Split_GenerateSongKey title artist :
  strings.Contains (title +:+ "--") "---" = false →
  strings.Contains artist "---" = false →
  strings.Split (GenerateSongKey title artist) "---" = [title; artist].
Proof. intros Htitle Hartist. by apply (genSplit_key title artist []). Qed.

Lemma ArgUint32_inj : Inj (=) (=) ArgUint32.
Proof. by intros n1 n2 [= ->]. Qed.

Lemma ArgString_inj : Inj (=) (=) ArgString.
Proof. by intros s1 s2 [= ->]. Qed.

(** What GetSong answers on an engine that does not fail, for a statement
    that selects the given rows. *)
Lemma GetSong_answer filterKey value rows e :
  strings.Contains FILTER_KEYS filterKey = true →
  healthy e →
  sqlite_select (song_query filterKey) value (songs e) = inr rows →
  (GetSong sqlite_select filterKey value e).1
  = match rows with [] => (emptySong, false, None) | r :: _ => song_of_row r end.
Proof. intros Hf Hh Hsel. by rewrite GetSong_healthy, Hsel. Qed.

(** X11: in a registry that obeys the constraints of its table, the three
    lookup paths agree: for a stored song, GetSongByID on its id,
    GetSongByYTID on its ytID and GetSongByKey on its key all return what
    GetSong makes of that one row. *)
Theorem lookup_paths_agree r e :
  healthy e → songs_constraints (songs e) → r ∈ songs e →
  (GetSongByID sqlite_select (row_id r) e).1 = song_of_row r
  ∧ (GetSongByYTID sqlite_select (row_ytID r) e).1 = song_of_row r
  ∧ (GetSongByKey sqlite_select (row_key r) e).1 = song_of_row r.
Proof.
  intros Hh (Hid & Hkey & Hyt) Hin.
  unfold GetSongByID, GetSongByYTID, GetSongByKey.
  split; [|split].
  - rewrite (GetSong_answer "id" _ [r]); [done..|].
    change (sqlite_select (song_query "id") (ArgUint32 (row_id r)) (songs e))
      with (inr (B := list SongRow) (A := DriverErr)
              (filter (λ x, ArgUint32 (row_id x) = ArgUint32 (row_id r)) (songs e))).
    f_equal. apply (filter_unique (λ x, ArgUint32 (row_id x))); [|done].
    rewrite (list_fmap_compose row_id ArgUint32).
    by apply NoDup_fmap_2; [apply ArgUint32_inj|].
  - rewrite (GetSong_answer "ytID" _ [r]); [done..|].
    change (sqlite_select (song_query "ytID") (ArgString (row_ytID r)) (songs e))
      with (inr (B := list SongRow) (A := DriverErr)
              (filter (λ x, ArgString (row_ytID x) = ArgString (row_ytID r)) (songs e))).
    f_equal. apply (filter_unique (λ x, ArgString (row_ytID x))); [|done].
    rewrite (list_fmap_compose row_ytID ArgString).
    by apply NoDup_fmap_2; [apply ArgString_inj|].
  - rewrite (GetSong_answer "key" _ [r]); [done..|].
    change (sqlite_select (song_query "key") (ArgString (row_key r)) (songs e))
      with (inr (B := list SongRow) (A := DriverErr)
              (filter (λ x, ArgString (row_key x) = ArgString (row_key r)) (songs e))).
    f_equal. apply (filter_unique (λ x, ArgString (row_key x))); [|done].
    rewrite (list_fmap_compose row_key ArgString).
    by apply NoDup_fmap_2; [apply ArgString_inj|].
Qed.


Lemma lookup_paths_agree_witness :
  (GetSongByID sqlite_select 42 sampleEngine).1
  = song_of_row (mkSongRow 42 "Song A---Artist X" "yt123")
  ∧ (GetSongByYTID sqlite_select "yt123" sampleEngine).1
    = song_of_row (mkSongRow 42 "Song A---Artist X" "yt123")
  ∧ (GetSongByKey sqlite_select "Song A---Artist X" sampleEngine).1
    = song_of_row (mkSongRow 42 "Song A---Artist X" "yt123").
Proof.
  apply (lookup_paths_agree (mkSongRow 42 "Song A---Artist X" "yt123") sampleEngine).
  - constructor.
  - exact sampleEngine_constraints.
  - apply list_elem_of_further, list_elem_of_here.
Defined.

Lemma filter_new_row {B} `{EqDecision B} (f : SongRow → B) (rows : list SongRow) (r : SongRow) :
  f r ∉ f <$> rows → filter (λ x, f x = f r) (rows ++ [r]) = [r].
Proof.
  intros Hfresh. rewrite filter_app, filter_cons_True, filter_nil by done.
  rewrite filter_keep_none; [done|].
  intros x Hx Heq. apply Hfresh. rewrite <- Heq. by apply list_elem_of_fmap_2.
Qed.

Lemma not_elem_of_fmap_inj {A B C} (g : B → C) (f : A → B) (l : list A) (v : B) :
  Inj (=) (=) g → v ∉ f <$> l → g v ∉ (λ x, g (f x)) <$> l.
Proof.
  intros Hinj Hnotin (x & Heq & Hx)%list_elem_of_fmap. apply Hnotin.
  apply Hinj in Heq as ->. by apply list_elem_of_fmap_2.
Qed.

(** After a registration that returned no error, each of the three lookups
    of the new song answers with what GetSong makes of its row. *)
Lemma lookups_after_RegisterSong songID songTitle songArtist ytID e e1 :
  RegisterSong songID songTitle songArtist ytID e = ((songID, None), e1) →
  healthy e1 →
  let r := mkSongRow songID (GenerateSongKey songTitle songArtist) ytID in
  (GetSongByID sqlite_select songID e1).1 = song_of_row r
  ∧ (GetSongByYTID sqlite_select ytID e1).1 = song_of_row r
  ∧ (GetSongByKey sqlite_select (GenerateSongKey songTitle songArtist) e1).1 = song_of_row r.
Proof.
  intros Hreg Hh r.
  pose proof (RegisterSong_cases songID songTitle songArtist ytID e) as Hcases.
  cbv zeta in Hcases. rewrite Hreg in Hcases. cbn [fst snd] in Hcases.
  destruct Hcases as [(_ & _ & Hfid & Hfkey & Hfyt & Hsongs) | ((err & [=]) & _)].
  fold r in Hsongs.
  unfold GetSongByID, GetSongByYTID, GetSongByKey.
  split; [|split].
  - rewrite (GetSong_answer "id" _ [r]); [done..|]. rewrite Hsongs.
    change (sqlite_select (song_query "id") (ArgUint32 songID) (songs e ++ [r]))
      with (inr (B := list SongRow) (A := DriverErr)
              (filter (λ x, ArgUint32 (row_id x) = ArgUint32 (row_id r)) (songs e ++ [r]))).
    f_equal. apply (filter_new_row (λ x, ArgUint32 (row_id x))).
    by apply not_elem_of_fmap_inj; [apply ArgUint32_inj|].
  - rewrite (GetSong_answer "ytID" _ [r]); [done..|]. rewrite Hsongs.
    change (sqlite_select (song_query "ytID") (ArgString ytID) (songs e ++ [r]))
      with (inr (B := list SongRow) (A := DriverErr)
              (filter (λ x, ArgString (row_ytID x) = ArgString (row_ytID r)) (songs e ++ [r]))).
    f_equal. apply (filter_new_row (λ x, ArgString (row_ytID x))).
    by apply not_elem_of_fmap_inj; [apply ArgString_inj|].
  - rewrite (GetSong_answer "key" _ [r]); [done..|]. rewrite Hsongs.
    change (sqlite_select (song_query "key")
              (ArgString (GenerateSongKey songTitle songArtist)) (songs e ++ [r]))
      with (inr (B := list SongRow) (A := DriverErr)
              (filter (λ x, ArgString (row_key x) = ArgString (row_key r)) (songs e ++ [r]))).
    f_equal. apply (filter_new_row (λ x, ArgString (row_key x))).
    by apply not_elem_of_fmap_inj; [apply ArgString_inj|].
Qed.

(** X12: registration and lookup round trip.  When no ["---"] starts inside
    the title followed by two dashes, and none occurs in the artist, a song
    registered without error is returned, with the title, artist and ytID it
    was registered with, by GetSongByID on the id returned, by GetSongByYTID
    on its ytID and by GetSongByKey on its key. *)
Theorem RegisterSong_then_lookup songID songTitle songArtist ytID e e1 :
  strings.Contains (songTitle +:+ "--") "---" = false →
  strings.Contains songArtist "---" = false →
  RegisterSong songID songTitle songArtist ytID e = ((songID, None), e1) →
  healthy e1 →
  (GetSongByID sqlite_select songID e1).1 = (mkSong songTitle songArtist ytID, true, None)
  ∧ (GetSongByYTID sqlite_select ytID e1).1 = (mkSong songTitle songArtist ytID, true, None)
  ∧ (GetSongByKey sqlite_select (GenerateSongKey songTitle songArtist) e1).1
    = (mkSong songTitle songArtist ytID, true, None).
Proof.
  intros Htitle Hartist Hreg Hh.
  pose proof (lookups_after_RegisterSong _ _ _ _ _ _ Hreg Hh) as Hlookups.
  cbv zeta in Hlookups.
  assert (song_of_row (mkSongRow songID (GenerateSongKey songTitle songArtist) ytID)
          = (mkSong songTitle songArtist ytID, true, None)) as Hrow.
  { unfold song_of_row. cbn [row_key row_ytID]. by rewrite Split_GenerateSongKey. }
  by rewrite Hrow in Hlookups.
Qed.

Lemma RegisterSong_then_lookup_witness :
  (GetSongByKey sqlite_select (GenerateSongKey "Song B" "Artist Y")
     (RegisterSong 43 "Song B" "Artist Y" "yt999" sampleEngine).2).1
  = (mkSong "Song B" "Artist Y" "yt999", true, None).
Proof.
  assert (healthy (RegisterSong 43 "Song B" "Artist Y" "yt999" sampleEngine).2) as Hh
    by (vm_compute; constructor).
  apply (RegisterSong_then_lookup 43 "Song B" "Artist Y" "yt999" sampleEngine
           (RegisterSong 43 "Song B" "Artist Y" "yt999" sampleEngine).2
           eq_refl eq_refl eq_refl Hh).
Defined.

(** A title that ends in a dash is outside that condition: the separator is
    found one byte early, and the song comes back with another title and
    another artist. *)
Example RegisterSong_title_ending_in_dash :
  (GetSongByID sqlite_select 1
     (RegisterSong 1 "a-" "b" "yt1" emptyEngine).2).1
  = (mkSong "a" "-b" "yt1", true, None).
Proof. vm_compute. reflexivity. Qed.

Lemma song_of_row_not_empty r : song_of_row r ≠ (emptySong, false, None).
Proof. unfold song_of_row. by repeat case_match. Qed.

Lemma answer_not_found {B} `{EqDecision B} (f : SongRow → B) (v : B) (rows : list SongRow) :
  match filter (λ x, f x = v) rows with
  | [] => (emptySong, false, None)
  | r :: _ => song_of_row r
  end = (emptySong, false, None)
  ↔ v ∉ f <$> rows.
Proof.
  destruct (filter (λ x, f x = v) rows) as [|r matching] eqn:Hfilter; split.
  - intros _ (x & -> & Hx)%list_elem_of_fmap.
    by apply (filter_nil_not_elem_of _ _ x) in Hfilter.
  - done.
  - intros Hempty. by apply song_of_row_not_empty in Hempty.
  - intros Habsent. destruct Habsent.
    assert (r ∈ filter (λ x, f x = v) rows) as Hr by (rewrite Hfilter; by left).
    apply list_elem_of_filter in Hr as [<- Hr]. by apply list_elem_of_fmap_2.
Qed.

Lemma elem_of_fmap_inj {A B C} (g : B → C) (f : A → B) (l : list A) (v : B) :
  Inj (=) (=) g → g v ∈ (λ x, g (f x)) <$> l ↔ v ∈ f <$> l.
Proof.
  intros Hinj. split.
  - intros (x & Heq & Hx)%list_elem_of_fmap. apply Hinj in Heq as ->.
    by apply list_elem_of_fmap_2.
  - intros (x & -> & Hx)%list_elem_of_fmap.
    by apply (list_elem_of_fmap_2 (λ x, g (f x))).
Qed.

(** X13: on an engine that does not fail, a lookup reports not-found
    (empty Song, found=false, no error) exactly when no registered song has
    the id, the ytID or the key asked for. *)
Theorem not_found_iff_absent songID ytID key e :
  healthy e →
  ((GetSongByID sqlite_select songID e).1 = (emptySong, false, None)
   ↔ songID ∉ row_id <$> songs e)
  ∧ ((GetSongByYTID sqlite_select ytID e).1 = (emptySong, false, None)
     ↔ ytID ∉ row_ytID <$> songs e)
  ∧ ((GetSongByKey sqlite_select key e).1 = (emptySong, false, None)
     ↔ key ∉ row_key <$> songs e).
Proof.
  intros Hh. unfold GetSongByID, GetSongByYTID, GetSongByKey. split; [|split].
  - rewrite (GetSong_answer "id" _
               (filter (λ x, ArgUint32 (row_id x) = ArgUint32 songID) (songs e)));
      [|done..].
    rewrite (answer_not_found (λ x, ArgUint32 (row_id x))).
    by rewrite (elem_of_fmap_inj ArgUint32 row_id) by apply ArgUint32_inj.
  - rewrite (GetSong_answer "ytID" _
               (filter (λ x, ArgString (row_ytID x) = ArgString ytID) (songs e)));
      [|done..].
    rewrite (answer_not_found (λ x, ArgString (row_ytID x))).
    by rewrite (elem_of_fmap_inj ArgString row_ytID) by apply ArgString_inj.
  - rewrite (GetSong_answer "key" _
               (filter (λ x, ArgString (row_key x) = ArgString key) (songs e)));
      [|done..].
    rewrite (answer_not_found (λ x, ArgString (row_key x))).
    by rewrite (elem_of_fmap_inj ArgString row_key) by apply ArgString_inj.
Qed.

Lemma not_found_iff_absent_witness :
  (GetSongByID sqlite_select 9999999 sampleEngine).1 = (emptySong, false, None)
  ∧ 42%N ∈ row_id <$> songs sampleEngine.
Proof.
  destruct (not_found_iff_absent 9999999 "yt123" "Song A---Artist X" sampleEngine)
    as (Hid & _ & _); [constructor|].
  destruct (not_found_iff_absent 42 "yt123" "Song A---Artist X" sampleEngine)
    as (Hid' & _ & _); [constructor|].
  split.
  - apply Hid. apply (bool_decide_unpack _). vm_compute. exact I.
  - destruct (decide (42%N ∈ row_id <$> songs sampleEngine)) as [Hin|Hnotin]; [done|].
    apply Hid' in Hnotin. vm_compute in Hnotin. discriminate Hnotin.
Defined.

(** ** More on the fingerprint index *)

Lemma Engine_eq e e' :
  fingerprints e = fingerprints e' → songs e = songs e' → tx e = tx e' →
  faults e = faults e' → trace e = trace e' → e = e'.
Proof. destruct e, e'. cbn. by intros -> -> -> -> ->. Qed.

Lemma upsert_all_perm t entries1 entries2 :
  NoDup entries1.*1 → entries1 ≡ₚ entries2 →
  upsert_all t entries1 = upsert_all t entries2.
Proof.
  intros Hnodup Hperm. apply map_eq. intros a.
  assert (NoDup entries2.*1) as Hnodup2 by by rewrite <- Hperm.
  destruct (decide (a ∈ entries1.*1)) as [Hin|Hnotin].
  - apply list_elem_of_fmap in Hin as ([a' c] & -> & Hin). cbn [fst].
    rewrite (upsert_all_in _ _ _ _ Hnodup Hin).
    rewrite Hperm in Hin. by rewrite (upsert_all_in _ _ _ _ Hnodup2 Hin).
  - rewrite upsert_all_notin by done. rewrite Hperm in Hnotin.
    by rewrite upsert_all_notin.
Qed.

(** Two runs of the loop of upserts over as many entries, on engines that
    differ in the view of their transaction only, end alike but for that
    view. *)
Lemma upsert_each_alike entries1 entries2 e e' t t' :
  length entries1 = length entries2 →
  tx e = Some t → tx e' = Some t' →
  fingerprints e = fingerprints e' → songs e = songs e' →
  faults e = faults e' → trace e = trace e' →
  (upsert_each entries1 e).1 = (upsert_each entries2 e').1
  ∧ fingerprints (upsert_each entries1 e).2 = fingerprints (upsert_each entries2 e').2
  ∧ songs (upsert_each entries1 e).2 = songs (upsert_each entries2 e').2
  ∧ faults (upsert_each entries1 e).2 = faults (upsert_each entries2 e').2
  ∧ trace (upsert_each entries1 e).2 = trace (upsert_each entries2 e').2.
Proof.
  revert entries2 e e' t t'.
  induction entries1 as [|[a1 c1] entries1 IH];
    intros [|[a2 c2] entries2] e e' t t' Hlen Htx Htx' Hf Hs Hfaults Htrace; try done.
  cbn [upsert_each]. unfold stmt_Exec, call, next_fault. rewrite Htx, Htx', <- Hfaults.
  destruct (mjoin (head (faults e))) as [msg|]; cbn [fst snd fingerprints songs faults trace].
  - by rewrite Hf, Hs, Htrace.
  - eapply IH; cbn; first [done | congruence | by injection Hlen].
Qed.

(** X14: the outcome of StoreFingerprints does not depend on the order in
    which the loop meets the entries of the map: two orders of the same
    entries give the same error or success and the same engine state. *)
Theorem StoreFingerprints_order_irrelevant entries1 entries2 e :
  NoDup entries1.*1 → entries1 ≡ₚ entries2 →
  StoreFingerprints entries1 e = StoreFingerprints entries2 e.
Proof.
  intros Hnodup Hperm. unfold StoreFingerprints, db_Begin, call.
  destruct (next_fault e) as [msg|]; [done|].
  unfold defer, tx_Prepare, call. cbn [tx set_tx].
  match goal with |- context [next_fault ?e0] => destruct (next_fault e0) as [msg|] end;
    [done|].
  match goal with |- context [upsert_each entries1 ?e0] =>
    destruct (upsert_each_alike entries1 entries2 e0 e0 _ _
                (Permutation_length Hperm) eq_refl eq_refl eq_refl eq_refl eq_refl eq_refl)
      as (Hr & Hf & Hs & Hfaults & Htrace);
    pose proof (upsert_each_tx entries1 e0 _ (upsert_each entries1 e0).1
                  (upsert_each entries1 e0).2 eq_refl (surjective_pairing _)) as (_ & _ & Htx1);
    pose proof (upsert_each_tx entries2 e0 _ (upsert_each entries2 e0).1
                  (upsert_each entries2 e0).2 eq_refl (surjective_pairing _)) as (_ & _ & Htx2);
    destruct (upsert_each entries1 e0) as [r1 e1];
    destruct (upsert_each entries2 e0) as [r2 e2]
  end.
  cbn [fst snd] in *. subst r2. destruct r1 as [err|].
  - destruct Htx1 as [t1 Htx1], Htx2 as [t2 Htx2]. f_equal.
    unfold tx_Rollback, call, next_fault. rewrite Htx1, Htx2, Hfaults.
    destruct (mjoin _); cbn [snd]; apply Engine_eq; cbn; congruence.
  - rewrite (upsert_all_perm _ _ _ Hnodup Hperm) in Htx1.
    unfold tx_Commit, call, next_fault. rewrite Htx1, Htx2, Hfaults.
    destruct (mjoin _); cbn [snd fst]; f_equal;
      unfold tx_Rollback; cbn [tx set_tx set_fingerprints snd];
      apply Engine_eq; cbn; congruence.
Qed.

Lemma StoreFingerprints_order_irrelevant_witness :
  StoreFingerprints sampleBatch failingEngine
  = StoreFingerprints (reverse sampleBatch) failingEngine.
Proof.
  apply (StoreFingerprints_order_irrelevant sampleBatch (reverse sampleBatch) failingEngine
           sampleBatch_NoDup).
  symmetry. apply reverse_Permutation.
Defined.

Lemma upsert_all_union t entries :
  NoDup entries.*1 → upsert_all t entries = list_to_map entries ∪ t.
Proof.
  intros Hnodup. apply map_eq. intros a.
  destruct (decide (a ∈ entries.*1)) as [Hin|Hnotin].
  - apply list_elem_of_fmap in Hin as ([a' c] & -> & Hin). cbn [fst].
    rewrite (upsert_all_in _ _ _ _ Hnodup Hin). symmetry.
    apply lookup_union_Some_l. by apply elem_of_list_to_map_1.
  - rewrite upsert_all_notin by done. symmetry.
    rewrite lookup_union_r; [done|]. by apply not_elem_of_list_to_map_1.
Qed.

(** X15: successive batches compose as maps laid over the table: after two
    StoreFingerprints that returned no error, the table is the second batch
    over the first batch over the table they started from, so an address of
    the second batch has the occurrence given there, another address of the
    first batch keeps the occurrence given there, and every other address
    keeps its row.  Storing the same batch a second time changes nothing. *)
Theorem StoreFingerprints_successive first second e e1 e2 :
  NoDup first.*1 → NoDup second.*1 →
  StoreFingerprints first e = (None, e1) →
  StoreFingerprints second e1 = (None, e2) →
  fingerprints e2 = list_to_map second ∪ (list_to_map first ∪ fingerprints e)
  ∧ (first = second → fingerprints e2 = fingerprints e1).
Proof.
  intros Hnodup1 Hnodup2 Hstore1 Hstore2.
  apply StoreFingerprints_table in Hstore1 as [_ [Htable1 _]].
  apply StoreFingerprints_table in Hstore2 as [_ [Htable2 _]].
  rewrite Htable2, Htable1, !upsert_all_union by done. split; [done|].
  intros ->. apply map_eq. intros a. rewrite !lookup_union.
  by destruct (list_to_map second !! a), (fingerprints e !! a).
Qed.

Lemma StoreFingerprints_successive_witness :
  fingerprints
    (StoreFingerprints [(100%N, mkCouple 7 7)]
       (StoreFingerprints sampleBatch indexedEngine).2).2
  = list_to_map [(100%N, mkCouple 7 7)]
      ∪ (list_to_map sampleBatch ∪ fingerprints indexedEngine).
Proof.
  set (e1 := (StoreFingerprints sampleBatch indexedEngine).2).
  set (e2 := (StoreFingerprints [(100%N, mkCouple 7 7)] e1).2).
  assert (StoreFingerprints sampleBatch indexedEngine = (None, e1)) as Hfirst
    by (vm_compute; reflexivity).
  assert (StoreFingerprints [(100%N, mkCouple 7 7)] e1 = (None, e2)) as Hsecond
    by (vm_compute; reflexivity).
  apply (StoreFingerprints_successive sampleBatch [(100%N, mkCouple 7 7)]
           indexedEngine e1 e2 sampleBatch_NoDup); [|exact Hfirst|exact Hsecond].
  apply (bool_decide_unpack _). vm_compute. exact I.
Defined.

Lemma StoreFingerprints_tx entries e : tx e = None → tx (StoreFingerprints entries e).2 = None.
Proof.
  intros Htx. unfold StoreFingerprints, db_Begin, call.
  destruct (next_fault e); [done|]. unfold defer.
  match goal with |- context [let '(_, _) := ?body in _] => destruct body as [r e3] end.
  cbn [snd]. apply tx_Rollback_tables.
Qed.

Lemma RegisterSong_tx songID songTitle songArtist ytID e :
  tx (RegisterSong songID songTitle songArtist ytID e).2 = tx e.
Proof.
  unfold RegisterSong, db_Exec_insert_song, call.
  destruct (next_fault e); [by destruct (strings.Contains _ _)|].
  by repeat case_bool_decide.
Qed.

Lemma DeleteSongByID_tx songID e : tx (DeleteSongByID songID e).2 = tx e.
Proof.
  pose proof (DeleteSongByID_cases songID e) as Hcases.
  by destruct (next_fault e); rewrite Hcases.
Qed.

(** X16: no operation of the client leaves a transaction open: started with
    no transaction open, StoreFingerprints, GetCouples, RegisterSong, GetSong,
    DeleteSongByID and TotalSongs all end with none open, whatever they
    return and whichever driver call fails. *)
Theorem no_transaction_left_open select_songs entries addresses
    songID songTitle songArtist ytID filterKey value e :
  tx e = None →
  tx (StoreFingerprints entries e).2 = None
  ∧ tx (GetCouples addresses e).2 = None
  ∧ tx (RegisterSong songID songTitle songArtist ytID e).2 = None
  ∧ tx (GetSong select_songs filterKey value e).2 = None
  ∧ tx (DeleteSongByID songID e).2 = None
  ∧ tx (TotalSongs e).2 = None.
Proof.
  intros Htx. unfold GetCouples. split; [by apply StoreFingerprints_tx|].
  split; [by destruct (collect_couples_same_tables addresses ∅ e) as (_ & _ & ->)|].
  split; [by rewrite RegisterSong_tx|].
  split; [by destruct (GetSong_same_tables select_songs filterKey value e) as (_ & _ & ->)|].
  split; [by rewrite DeleteSongByID_tx|].
  by destruct (TotalSongs_same_tables e) as (_ & _ & ->).
Qed.

Lemma no_transaction_left_open_witness :
  tx (StoreFingerprints sampleBatch failingEngine).2 = None.
Proof.
  apply (no_transaction_left_open sqlite_select sampleBatch [] 1 "" "" "" "" (ArgUint32 1)
           failingEngine eq_refl).
Defined.

Lemma no_failure_ahead (schedule : list (option string)) :
  Forall (λ f, f = None) schedule → mjoin (head schedule) = None.
Proof. destruct schedule as [|f schedule]; [done|]. by intros [-> _]%Forall_cons. Qed.

Lemma Forall_tail {A} (P : A → Prop) (l : list A) : Forall P l → Forall P (tail l).
Proof. destruct l; [done|]. by intros [_ ?]%Forall_cons. Qed.

(** X17: an empty batch still costs a transaction.  StoreFingerprints of an
    empty map never changes the table, yet it returns no error only when
    BEGIN, the preparation of the statement and COMMIT all go through; on an
    engine that does not fail those three calls are what it sends. *)
Theorem StoreFingerprints_empty_batch e :
  fingerprints (StoreFingerprints [] e).2 = fingerprints e
  ∧ ((StoreFingerprints [] e).1 = None ↔ no_fault_in 3 e)
  ∧ (healthy e →
     trace (StoreFingerprints [] e).2 = trace e ++ ["BEGIN"; upsert_sql; "COMMIT"]).
Proof.
  split; [|split].
  - destruct (StoreFingerprints [] e) as [r e'] eqn:Hstore.
    apply StoreFingerprints_table in Hstore as [_ Htable]. cbn [snd].
    destruct r; [done|]. by destruct Htable as [-> _].
  - apply (StoreFingerprints_succeeds_iff [] e).
  - intros Hh. unfold healthy in Hh.
    pose proof (no_failure_ahead _ Hh) as H0.
    pose proof (no_failure_ahead _ (Forall_tail _ _ Hh)) as H1.
    pose proof (no_failure_ahead _ (Forall_tail _ _ (Forall_tail _ _ Hh))) as H2.
    unfold StoreFingerprints, db_Begin, defer, tx_Prepare, call, next_fault.
    rewrite H0. cbn [tx set_tx faults]. rewrite H1. cbn [upsert_each].
    unfold tx_Commit, call, next_fault. cbn [tx faults]. rewrite H2.
    cbn. by rewrite <- !(assoc_L (++)).
Qed.

Lemma StoreFingerprints_empty_batch_witness :
  trace (StoreFingerprints [] indexedEngine).2 = ["BEGIN"; upsert_sql; "COMMIT"].
Proof.
  apply (proj2 (proj2 (StoreFingerprints_empty_batch indexedEngine))). constructor.
Defined.

(** X18: on an engine that does not fail, what GetCouples returns depends on
    the set of the addresses asked for only, not on their order nor on how
    often one is repeated. *)
Theorem GetCouples_set_of_addresses addresses1 addresses2 e :
  healthy e →
  (list_to_set addresses1 : gset N) = list_to_set addresses2 →
  (GetCouples addresses1 e).1 = (GetCouples addresses2 e).1.
Proof.
  intros Hh Hset.
  destruct (GetCouples_healthy addresses1 e Hh) as (couples1 & e1 & -> & Hcouples1).
  destruct (GetCouples_healthy addresses2 e Hh) as (couples2 & e2 & -> & Hcouples2).
  cbn [fst]. f_equal. apply map_eq. intros a. rewrite Hcouples1, Hcouples2.
  assert (a ∈ addresses1 ↔ a ∈ addresses2) as Hiff.
  { by rewrite <- !(elem_of_list_to_set (C := gset N)), Hset. }
  destruct (decide (a ∈ addresses1)) as [Hin|Hnotin].
  - by rewrite decide_True by by apply Hiff.
  - by rewrite decide_False by by rewrite <- Hiff.
Qed.

Lemma GetCouples_set_of_addresses_witness :
  (GetCouples [100%N; 300%N; 100%N] indexedEngine).1
  = (GetCouples [300%N; 100%N] indexedEngine).1.
Proof.
  apply (GetCouples_set_of_addresses [100%N; 300%N; 100%N] [300%N; 100%N] indexedEngine).
  - constructor.
  - apply (bool_decide_unpack _). vm_compute. exact I.
Defined.

(** X19: a failure of rows.Next goes unreported.  When the query of an
    address goes through and the first rows.Next fails, GetCouples returns no
    error and binds the address to no occurrence, whether or not one is
    stored for it. *)
Theorem GetCouples_hides_Next_failure address e msg later :
  faults e = None :: Some msg :: later →
  (GetCouples [address] e).1 = inr {[ address := [] ]}.
Proof.
  intros Hfaults. unfold GetCouples. cbn [collect_couples].
  unfold db_Query, call, next_fault. rewrite Hfaults. cbn [head mjoin option_join tail faults].
  cbn [fingerprints].
  destruct (option_list _) as [|row rows]; cbn [scan_rows];
    unfold rows_Next, call, next_fault; cbn [faults head mjoin option_join]; cbn [fst];
    by rewrite insert_empty.
Qed.

Lemma GetCouples_hides_Next_failure_witness :
  fingerprints (mkEngine {[ 100%N := mkCouple 1 9 ]} [] None [None; Some "disk I/O error"] [])
    !! 100%N = Some (mkCouple 1 9)
  ∧ (GetCouples [100%N]
       (mkEngine {[ 100%N := mkCouple 1 9 ]} [] None [None; Some "disk I/O error"] [])).1
    = inr {[ 100%N := [] ]}.
Proof.
  split; [reflexivity|].
  apply (GetCouples_hides_Next_failure 100%N _ "disk I/O error" []). reflexivity.
Defined.

(** X20: each table is written by its own operations only: RegisterSong and
    DeleteSongByID never change the fingerprint table, and StoreFingerprints
    never changes the song registry, whatever they return. *)
Theorem writes_stay_in_their_table entries songID songTitle songArtist ytID e :
  fingerprints (RegisterSong songID songTitle songArtist ytID e).2 = fingerprints e
  ∧ fingerprints (DeleteSongByID songID e).2 = fingerprints e
  ∧ songs (StoreFingerprints entries e).2 = songs e.
Proof.
  split; [|split].
  - unfold RegisterSong, db_Exec_insert_song, call.
    destruct (next_fault e); [by destruct (strings.Contains _ _)|].
    by repeat case_bool_decide.
  - pose proof (DeleteSongByID_cases songID e) as Hcases.
    by destruct (next_fault e); rewrite Hcases.
  - destruct (StoreFingerprints entries e) as [r e'] eqn:Hstore. cbn [snd].
    by apply StoreFingerprints_table in Hstore as [-> _].
Qed.

(** ** Keys that do not split back *)

Lemma genSplit_two_parts sep cur s :
  sep ≠ "" → strings.Contains s sep = true →
  (2 ≤ length (strings.genSplit sep cur 0 s))%nat.
Proof.
  intros Hsep. revert cur. induction s as [|c s IH]; intros cur Hin.
  - cbn [strings.Contains] in Hin. by apply HasPrefix_empty in Hin.
  - cbn [strings.Contains] in Hin. cbn [strings.genSplit].
    destruct (strings.HasPrefix (String c s) sep).
    + cbn [length].
      pose proof (genSplit_not_nil sep [] (String.length sep - 1) s) as Hrest.
      destruct (strings.genSplit sep [] _ s); [done|]. cbn [length]. lia.
    + by apply IH.
Qed.

Lemma append_assoc s1 s2 s3 : (s1 +:+ s2) +:+ s3 = s1 +:+ (s2 +:+ s3).
Proof. induction s1 as [|c s1 IH]; [done|]. by rewrite !append_cons, IH. Qed.

(** At a separator the part read so far is closed and the scan goes on
    behind the separator. *)
Lemma genSplit_at_separator sep cur rest :
  sep ≠ "" →
  strings.genSplit sep cur 0 (sep +:+ rest)
  = string_of_list_ascii (rev cur) :: strings.genSplit sep [] 0 rest.
Proof.
  intros Hsep. pose proof (HasPrefix_append sep rest) as Hprefix.
  destruct sep as [|p sep]; [done|]. rewrite append_cons in *.
  cbn [strings.genSplit]. rewrite Hprefix. f_equal.
  replace (String.length (String p sep) - 1)%nat with (String.length sep) by (cbn; lia).
  apply genSplit_skip.
Qed.

Lemma genSplit_three_parts pre rest cur :
  strings.Contains rest "---" = true →
  (3 ≤ length (strings.genSplit "---" cur 0 (pre +:+ "---" +:+ rest)))%nat.
Proof.
  intros Hrest. revert cur. induction pre as [|c pre IH]; intros cur.
  - change ("" +:+ "---" +:+ rest) with ("---" +:+ rest).
    rewrite genSplit_at_separator by done. cbn [length]. apply le_n_S.
    by apply genSplit_two_parts.
  - rewrite append_cons. cbn [strings.genSplit].
    destruct (strings.HasPrefix (String c (pre +:+ "---" +:+ rest)) "---"); [|apply IH].
    cbn [length]. apply le_n_S.
    destruct pre as [|d [|e pre]].
    + change (strings.genSplit "---" [] (String.length "---" - 1) ("" +:+ "---" +:+ rest))
        with (strings.genSplit "---" [] (String.length "--") ("--" +:+ ("-" +:+ rest))).
      rewrite genSplit_skip. apply genSplit_two_parts; [done|].
      change ("-" +:+ rest) with (String "-" rest).
      cbn [strings.Contains]. rewrite Hrest. apply orb_true_r.
    + change (strings.genSplit "---" [] (String.length "---" - 1)
                (String d "" +:+ "---" +:+ rest))
        with (strings.genSplit "---" [] (String.length (String d "-"))
                (String d "-" +:+ ("--" +:+ rest))).
      rewrite genSplit_skip. apply genSplit_two_parts; [done|].
      change ("--" +:+ rest) with (String "-" (String "-" rest)).
      cbn [strings.Contains]. rewrite Hrest. by rewrite !orb_true_r.
    + change (strings.genSplit "---" [] (String.length "---" - 1)
                (String d (String e pre) +:+ "---" +:+ rest))
        with (strings.genSplit "---" [] (String.length (String d (String e "")))
                (String d (String e "") +:+ (pre +:+ "---" +:+ rest))).
      rewrite genSplit_skip. apply genSplit_two_parts; [done|].
      apply Contains_occurs. by exists pre, rest.
Qed.

(** A separator inside the title or the artist gives a key of three parts or
    more. *)
Lemma Split_key_with_separator title artist :
  strings.Contains title "---" = true ∨ strings.Contains artist "---" = true →
  (3 ≤ length (strings.Split (GenerateSongKey title artist) "---"))%nat.
Proof.
  unfold strings.Split, GenerateSongKey. intros [Htitle|Hartist].
  - apply Contains_occurs in Htitle as (pre & post & ->).
    rewrite !append_assoc. apply genSplit_three_parts.
    apply Contains_occurs. by exists post, artist.
  - by apply genSplit_three_parts.
Qed.

(** X21: RegisterSong accepts a title or an artist that contains the
    separator ["---"], and the song can then not be read back: after a
    registration that returned no error, GetSongByID on the id returned,
    GetSongByYTID on its ytID and GetSongByKey on its key all fail with the
    invalid-key-format error. *)
Theorem RegisterSong_separator_unreadable songID songTitle songArtist ytID e e1 :
  strings.Contains songTitle "---" = true ∨ strings.Contains songArtist "---" = true →
  RegisterSong songID songTitle songArtist ytID e = ((songID, None), e1) →
  healthy e1 →
  (GetSongByID sqlite_select songID e1).1 = (emptySong, false, Some InvalidKeyFormat)
  ∧ (GetSongByYTID sqlite_select ytID e1).1 = (emptySong, false, Some InvalidKeyFormat)
  ∧ (GetSongByKey sqlite_select (GenerateSongKey songTitle songArtist) e1).1
    = (emptySong, false, Some InvalidKeyFormat).
Proof.
  intros Hsep Hreg Hh.
  pose proof (lookups_after_RegisterSong _ _ _ _ _ _ Hreg Hh) as Hlookups.
  cbv zeta in Hlookups.
  assert (song_of_row (mkSongRow songID (GenerateSongKey songTitle songArtist) ytID)
          = (emptySong, false, Some InvalidKeyFormat)) as Hrow.
  { unfold song_of_row. cbn [row_key row_ytID].
    apply Split_key_with_separator in Hsep.
    destruct (strings.Split _ _) as [|p0 [|p1 [|p2 parts]]]; cbn [length] in Hsep; [lia..|done]. }
  by rewrite Hrow in Hlookups.
Qed.

Lemma RegisterSong_separator_unreadable_witness :
  (GetSongByID sqlite_select 5
     (RegisterSong 5 "Tom---Jerry" "Artist" "yt5" emptyEngine).2).1
  = (emptySong, false, Some InvalidKeyFormat).
Proof.
  assert (healthy (RegisterSong 5 "Tom---Jerry" "Artist" "yt5" emptyEngine).2) as Hh
    by (vm_compute; constructor).
  apply (RegisterSong_separator_unreadable 5 "Tom---Jerry" "Artist" "yt5" emptyEngine
           (RegisterSong 5 "Tom---Jerry" "Artist" "yt5" emptyEngine).2
           (or_introl eq_refl) eq_refl Hh).
Defined.
